(** * SHA-256_implemetation.py: a shallow embedding and its properties

    The Python program computes a digest with unbounded integers, byte
    strings and a handful of loops.  Integers are modelled as [Z], byte
    strings as [list byte], Python exceptions as the [Raise] branch of a
    small error monad, and every loop as a fold over the range it walks.
    Definitions carry the names of the Python functions they embed. *)

From Stdlib Require Import String Ascii.
From Stdlib.Strings Require Import Byte.
From Stdlib Require Import ZArith List Lia Bool Znumtheory Sorted.
Import ListNotations.

Local Open Scope Z_scope.

(** ** Exceptions and the error monad *)

Inductive exn : Type :=
| OverflowError   (* int.to_bytes: value does not fit *)
| IndexError      (* list index out of range *)
| NameError       (* a name read before any assignment *)
| ValueError.     (* unpacking a sequence of the wrong length *)

Inductive result (A : Type) : Type :=
| Ok (a : A)
| Raise (e : exn).

Arguments Ok {A} a.
Arguments Raise {A} e.

Definition bind {A B : Type} (m : result A) (k : A -> result B) : result B :=
  match m with
  | Ok a => k a
  | Raise e => Raise e
  end.

Notation "x <- m ;; k" := (bind m (fun x => k))
  (at level 61, m at next level, right associativity).
Notation "' pat <- m ;; k" := (bind m (fun x => match x with pat => k end))
  (at level 61, pat pattern, m at next level, right associativity).

(** A [for] loop whose body may raise: the state is threaded through the
    items in order and the first exception stops the loop. *)
Fixpoint for_each {S I : Type} (body : S -> I -> result S) (items : list I)
  (s : S) : result S :=
  match items with
  | [] => Ok s
  | i :: rest => s' <- body s i ;; for_each body rest s'
  end.

(** A generator expression consumed by [join] or a list comprehension whose
    element expression may raise. *)
Fixpoint map_result {A B : Type} (f : A -> result B) (l : list A)
  : result (list B) :=
  match l with
  | [] => Ok []
  | a :: rest => b <- f a ;; bs <- map_result f rest ;; Ok (b :: bs)
  end.

(** [lst[i]] for a non-negative index. *)
Definition index {A : Type} (l : list A) (i : nat) : result A :=
  match nth_error l i with
  | Some a => Ok a
  | None => Raise IndexError
  end.

(** [range(lo, hi)] over the integers. *)
Definition range (lo hi : Z) : list Z :=
  map (fun k => lo + Z.of_nat k) (seq 0 (Z.to_nat (hi - lo))).

(** ** Byte strings *)

Definition bytes : Type := list byte.

Definition Z_of_byte (b : byte) : Z := Z.of_N (Byte.to_N b).

Definition byte_of_Z (z : Z) : byte :=
  match Byte.of_N (Z.to_N z) with
  | Some b => b
  | None => x00
  end.

(** [x[i:j]] for [0 <= i <= j]: slices never raise, they clip. *)
Definition slice {A : Type} (x : list A) (i j : nat) : list A :=
  firstn (j - i) (skipn i x).

(** [int.from_bytes(x, 'big')]. *)
Definition from_bytes_big (x : bytes) : Z :=
  fold_left (fun acc b => acc * 256 + Z_of_byte b) x 0.

(** The [len] big-endian digits of [x] in base 256. *)
Fixpoint big_endian (len : nat) (x : Z) : bytes :=
  match len with
  | O => []
  | S k => byte_of_Z ((x / 256 ^ Z.of_nat k) mod 256) :: big_endian k x
  end.

(** [x.to_bytes(len, 'big')]: raises OverflowError for a negative [x]
    and for an [x] that needs more than [len] bytes. *)
Definition to_bytes_big (x : Z) (len : nat) : result bytes :=
  if x <? 0 then Raise OverflowError
  else if 256 ^ Z.of_nat len <=? x then Raise OverflowError
  else Ok (big_endian len x).

(** [bytes.hex()]. *)
Definition hex_digit (d : Z) : ascii :=
  if d <? 10 then ascii_of_N (Z.to_N (48 + d))
  else ascii_of_N (Z.to_N (87 + d)).

Fixpoint hex (x : bytes) : string :=
  match x with
  | [] => EmptyString
  | b :: rest =>
      String (hex_digit (Z_of_byte b / 16))
        (String (hex_digit (Z_of_byte b mod 16)) (hex rest))
  end.

(** ** SHA-256 functions (source lines 14-42) *)

(** [size] defaults to 32 in the source and no caller overrides it; the
    callers below pass it explicitly.  The result is not masked. *)
Definition rotr (x n size : Z) : Z :=
  Z.lor (Z.shiftr x n) (Z.shiftl x (size - n)).

Definition shr (x n : Z) : Z := Z.shiftr x n.

(** Python's [~x] on an unbounded integer is [-x-1], which is [Z.lnot]. *)
Definition ch (x y z : Z) : Z :=
  Z.lxor (Z.land x y) (Z.land (Z.lnot x) z).

Definition maj (x y z : Z) : Z :=
  Z.lxor (Z.lxor (Z.land x y) (Z.land x z)) (Z.land y z).

Definition summation0 (x : Z) : Z :=
  Z.lxor (Z.lxor (rotr x 2 32) (rotr x 13 32)) (rotr x 22 32).

Definition summation1 (x : Z) : Z :=
  Z.lxor (Z.lxor (rotr x 6 32) (rotr x 11 32)) (rotr x 25 32).

Definition sigma0 (x : Z) : Z :=
  Z.lxor (Z.lxor (rotr x 7 32) (rotr x 18 32)) (shr x 3).

Definition sigma1 (x : Z) : Z :=
  Z.lxor (Z.lxor (rotr x 17 32) (rotr x 19 32)) (shr x 10).

Definition bytes_to_integer (x : bytes) : Z := from_bytes_big x.

Definition integer_to_bytes (x : Z) : result bytes := to_bytes_big x 4.

(** ** SHA-256 constants (source lines 46-61) *)

(** [all(n % d for d in range(2, n))]: trial division. *)
Definition trial_division (n : Z) : bool :=
  forallb (fun d => negb (n mod d =? 0)) (range 2 n).

(** The generator [(n for n in count(2) if ...)] read through [islice]:
    candidates are tried upwards from [c] until [n] of them have passed.
    The Python generator is unbounded; [fuel] bounds the number of
    candidates tried, and a list shorter than [n] means the fuel ran out
    before [islice] was served ([primes_from_fuel] below: once the fuel is
    enough, more fuel changes nothing). *)
Fixpoint primes_from (fuel : nat) (c : Z) (n : nat) {struct fuel} : list Z :=
  match n, fuel with
  | O, _ => []
  | S _, O => []
  | S n', S fuel' =>
      if trial_division c then c :: primes_from fuel' (c + 1) n'
      else primes_from fuel' (c + 1) n
  end.

Definition search_fuel : nat := 512.

Definition generate_n_primes (n : nat) : list Z :=
  primes_from search_fuel 2 n.

(** Python floats are IEEE doubles.  Every double in the interval from 1
    to 2^52 is a whole multiple of 2^-52, and such a double is modelled by
    that multiple, an integer. *)
Definition double_one : Z := 2 ^ 52.

(** Largest [r >= 0] with [r ^ n <= x], by bisection of [[lo, hi)]. *)
Fixpoint bisect (fuel : nat) (n x lo hi : Z) : Z :=
  match fuel with
  | O => lo
  | S fuel' =>
      if hi - lo <=? 1 then lo
      else
        let mid := (lo + hi) / 2 in
        if mid ^ n <=? x then bisect fuel' n x mid hi
        else bisect fuel' n x lo mid
  end.

Definition iroot (n x : Z) : Z :=
  bisect (S (Z.to_nat (Z.log2_up (x + 1)))) n x 0 (x + 1).

(** The real number [p ^ (1/n)] cut to 52 fractional bits. *)
Definition exact_pow (p n : Z) : Z := iroot n (p * double_one ^ n).

(** [floor (frac (p ^ (1/n)) * 2^32)] over the reals. *)
Definition frac_root_word (p n : Z) : Z := iroot n (p * (2 ^ 32) ^ n) mod 2 ^ 32.

(** What is asked of the platform's [prime ** (1/n)]: on the primes the
    program feeds it, with a square or a cube root, its double lies within
    [eps] multiples of 2^-52 of the real root cut to 52 fractional bits. *)
Definition pow_accurate (eps : Z) (fpow : Z -> Z -> Z) : Prop :=
  forall p n, 2 <= p <= 311 -> n = 2 \/ n = 3 ->
    Z.abs (fpow p n - exact_pow p n) <= eps.

(** ** Padding and parsing (source lines 65-78) *)

(** [while (len(msg)*8 % 512 != 448): msg.append(0x00)].  The fuel bounds
    the number of iterations; 63 are always enough ([while_pad_exit]). *)
Fixpoint while_pad (fuel : nat) (msg : bytes) : bytes :=
  if negb ((Z.of_nat (length msg) * 8) mod 512 =? 448) then
    match fuel with
    | O => msg
    | S fuel' => while_pad fuel' (msg ++ [x00])
    end
  else msg.

Definition padding (msg : bytes) : result bytes :=
  let l := Z.of_nat (length msg) * 8 in
  let msg := msg ++ [x80] in
  let msg := while_pad 64 msg in
  tail <- to_bytes_big l 8 ;;
  Ok (msg ++ tail).

(** [range(lo, hi, step)] for a positive step. *)
Definition range_step (lo hi step : Z) : list Z :=
  map (fun k => lo + step * Z.of_nat k)
      (seq 0 (Z.to_nat ((hi - lo + step - 1) / step))).

Definition parsing (msg : bytes) : list bytes :=
  map (fun i => slice msg (Z.to_nat i) (Z.to_nat (i + 64)))
      (range_step 0 (Z.of_nat (length msg)) 64).

(** ** The digest (source lines 81-133) *)

(** The working variables [a, b, c, d, e, f, g, h]. *)
Record working : Type := Working {
  va : Z; vb : Z; vc : Z; vd : Z; ve : Z; vf : Z; vg : Z; vh : Z
}.

(** One pass of the inner loop at lines 98-109. *)
Definition schedule_step (msg_block : bytes) (msg_schedule : list bytes)
  (t : nat) : result (list bytes) :=
  if (t <=? 15)%nat then
    Ok (msg_schedule ++ [slice msg_block (t * 4) (t * 4 + 4)])
  else
    w2 <- index msg_schedule (t - 2) ;;
    let t_1 := sigma1 (bytes_to_integer w2) in
    w7 <- index msg_schedule (t - 7) ;;
    let t_2 := bytes_to_integer w7 in
    w15 <- index msg_schedule (t - 15) ;;
    let t_3 := sigma0 (bytes_to_integer w15) in
    w16 <- index msg_schedule (t - 16) ;;
    let t_4 := bytes_to_integer w16 in
    let total := (t_1 + t_2 + t_3 + t_4) mod 2 ^ 32 in
    word <- integer_to_bytes total ;;
    Ok (msg_schedule ++ [word]).

(** Lines 95-109: [msg_schedule = []] and the 64 passes. *)
Definition prepare_schedule (msg_block : bytes) : result (list bytes) :=
  for_each (schedule_step msg_block) (seq 0 64) [].

(** The body of the loop over the blocks, lines 94-109.  The only thing it
    leaves behind is the binding of the name [msg_schedule], [None] while
    the name is unbound; whatever an earlier pass bound is overwritten. *)
Definition block_body (bound : option (list bytes)) (msg_block : bytes)
  : result (option (list bytes)) :=
  msg_schedule <- prepare_schedule msg_block ;;
  Ok (Some msg_schedule).

Definition read_name {A : Type} (bound : option A) : result A :=
  match bound with
  | Some v => Ok v
  | None => Raise NameError
  end.

(** [a, b, c, d, e, f, g, h = hash_value]. *)
Definition unpack8 (hash_value : list Z) : result working :=
  match hash_value with
  | [a; b; c; d; e; f; g; h] => Ok (Working a b c d e f g h)
  | _ => Raise ValueError
  end.

(** One pass of the loop at lines 114-124.  [%] binds tighter than [+], so
    line 115 reduces only the schedule word and line 116 only [maj]. *)
Definition round_step (key : list Z) (bound : option (list bytes))
  (v : working) (t : nat) : result working :=
  let '(Working a b c d e f g h) := v in
  k <- index key t ;;
  msg_schedule <- read_name bound ;;
  w <- index msg_schedule t ;;
  let temp_1 :=
    h + summation1 e + ch e f g + k + bytes_to_integer w mod 2 ^ 32 in
  let temp_2 := summation0 a + maj a b c mod 2 ^ 32 in
  Ok (Working ((temp_1 + temp_2) mod 2 ^ 32) a b c
              ((d + temp_1) mod 2 ^ 32) e f g).

Definition variables_of (v : working) : list Z :=
  [va v; vb v; vc v; vd v; ve v; vf v; vg v; vh v].

Section Digest.

(** The double returned by [prime ** (1/n)], as a multiple of 2^-52.  It
    comes from the platform's C library, which the program does not
    contain. *)
Variable fpow : Z -> Z -> Z.

(** [root - math.floor(root)] and the product with [16**hex_chars], a
    power of two, are exact on doubles. *)
Definition convert_prime_fraction_to_hex (prime n hex_chars : Z) : Z :=
  let root := fpow prime n in
  let frac_part := root - (root / double_one) * double_one in
  (frac_part * 16 ^ hex_chars) / double_one.

Definition gen_keys : list Z :=
  map (fun p => convert_prime_fraction_to_hex p 3 8) (generate_n_primes 64).

Definition gen_initial_hash : list Z :=
  map (fun p => convert_prime_fraction_to_hex p 2 8) (generate_n_primes 8).

Definition sha256 (msg : bytes) : result bytes :=
  let key := gen_keys in
  msg <- padding msg ;;
  let msg_blocks := parsing msg in
  let hash_value := gen_initial_hash in
  bound <- for_each block_body msg_blocks None ;;
  v <- unpack8 hash_value ;;
  v <- for_each (round_step key bound) (seq 0 64) v ;;
  let variables := variables_of v in
  let H := map (fun '(i, j) => (i + j) mod 2 ^ 32)
               (combine hash_value variables) in
  words <- map_result integer_to_bytes H ;;
  Ok (concat words).

End Digest.

(** ** The reference: SHA-256 as FIPS 180-4 and the specification word it

    Everything in this module follows the standard and the prose of the
    specification, not the Python source: words are reduced to 32 bits at
    every step, every block is compressed, and the state is carried from
    one block to the next. *)

Module FIPS.

Definition word (x : Z) : Prop := 0 <= x < 2 ^ 32.

Definition add32 (x y : Z) : Z := (x + y) mod 2 ^ 32.

(** Right rotation by [n] bits within a 32-bit field. *)
Definition ROTR (n x : Z) : Z :=
  Z.lor (Z.shiftr x n) (Z.shiftl x (32 - n) mod 2 ^ 32).

Definition SHR (n x : Z) : Z := Z.shiftr x n.

(** The complement of a 32-bit word. *)
Definition NOT (x : Z) : Z := 2 ^ 32 - 1 - x.

Definition Ch (x y z : Z) : Z := Z.lxor (Z.land x y) (Z.land (NOT x) z).

Definition Maj (x y z : Z) : Z :=
  Z.lxor (Z.lxor (Z.land x y) (Z.land x z)) (Z.land y z).

Definition Sum0 (x : Z) : Z :=
  Z.lxor (Z.lxor (ROTR 2 x) (ROTR 13 x)) (ROTR 22 x).

Definition Sum1 (x : Z) : Z :=
  Z.lxor (Z.lxor (ROTR 6 x) (ROTR 11 x)) (ROTR 25 x).

Definition sig0 (x : Z) : Z :=
  Z.lxor (Z.lxor (ROTR 7 x) (ROTR 18 x)) (SHR 3 x).

Definition sig1 (x : Z) : Z :=
  Z.lxor (Z.lxor (ROTR 17 x) (ROTR 19 x)) (SHR 10 x).

(** The round constants, FIPS 180-4 section 4.2.2. *)
Definition K : list Z := [
  0x428A2F98; 0x71374491; 0xB5C0FBCF; 0xE9B5DBA5;
  0x3956C25B; 0x59F111F1; 0x923F82A4; 0xAB1C5ED5;
  0xD807AA98; 0x12835B01; 0x243185BE; 0x550C7DC3;
  0x72BE5D74; 0x80DEB1FE; 0x9BDC06A7; 0xC19BF174;
  0xE49B69C1; 0xEFBE4786; 0x0FC19DC6; 0x240CA1CC;
  0x2DE92C6F; 0x4A7484AA; 0x5CB0A9DC; 0x76F988DA;
  0x983E5152; 0xA831C66D; 0xB00327C8; 0xBF597FC7;
  0xC6E00BF3; 0xD5A79147; 0x06CA6351; 0x14292967;
  0x27B70A85; 0x2E1B2138; 0x4D2C6DFC; 0x53380D13;
  0x650A7354; 0x766A0ABB; 0x81C2C92E; 0x92722C85;
  0xA2BFE8A1; 0xA81A664B; 0xC24B8B70; 0xC76C51A3;
  0xD192E819; 0xD6990624; 0xF40E3585; 0x106AA070;
  0x19A4C116; 0x1E376C08; 0x2748774C; 0x34B0BCB5;
  0x391C0CB3; 0x4ED8AA4A; 0x5B9CCA4F; 0x682E6FF3;
  0x748F82EE; 0x78A5636F; 0x84C87814; 0x8CC70208;
  0x90BEFFFA; 0xA4506CEB; 0xBEF9A3F7; 0xC67178F2 ].

(** The initial hash value, FIPS 180-4 section 5.3.3. *)
Definition H0 : list Z := [
  0x6A09E667; 0xBB67AE85; 0x3C6EF372; 0xA54FF53A;
  0x510E527F; 0x9B05688C; 0x1F83D9AB; 0x5BE0CD19 ].

(** Section 5.1.1: the bit 1, then the least number of zero bits that
    brings the length to 448 modulo 512, then the length on 64 bits. *)
Definition zero_bytes (len : nat) : nat :=
  Z.to_nat ((55 - Z.of_nat len) mod 64).

Definition pad (m : bytes) : bytes :=
  m ++ [x80] ++ repeat x00 (zero_bytes (length m))
    ++ big_endian 8 (Z.of_nat (length m) * 8).

(** Section 5.2.1: consecutive blocks of 64 bytes. *)
Fixpoint blocks (count : nat) (m : bytes) : list bytes :=
  match count with
  | O => []
  | S count' => firstn 64 m :: blocks count' (skipn 64 m)
  end.

Definition parse (m : bytes) : list bytes := blocks (length m / 64) m.

(** The 16 big-endian words of a block. *)
Definition block_words (block : bytes) : list Z :=
  map (fun t => from_bytes_big (firstn 4 (skipn (4 * t) block))) (seq 0 16).

(** Section 6.2.2, step 1. *)
Definition expand (W : list Z) (t : nat) : list Z :=
  W ++ [add32 (add32 (add32 (sig1 (nth (t - 2) W 0)) (nth (t - 7) W 0))
                     (sig0 (nth (t - 15) W 0)))
              (nth (t - 16) W 0)].

Definition schedule (block : bytes) : list Z :=
  fold_left expand (seq 16 48) (block_words block).

(** Section 6.2.2, step 3, as the specification's pseudocode has it. *)
Definition round (v : working) (Kt Wt : Z) : working :=
  let '(Working a b c d e f g h) := v in
  let T1 := (h + Sum1 e + Ch e f g + Kt + Wt) mod 2 ^ 32 in
  let T2 := (Sum0 a + Maj a b c) mod 2 ^ 32 in
  Working ((T1 + T2) mod 2 ^ 32) a b c ((d + T1) mod 2 ^ 32) e f g.

Definition rounds (W : list Z) (v : working) : working :=
  fold_left (fun v t => round v (nth t K 0) (nth t W 0)) (seq 0 64) v.

Definition working_of (H : list Z) : working :=
  Working (nth 0 H 0) (nth 1 H 0) (nth 2 H 0) (nth 3 H 0)
          (nth 4 H 0) (nth 5 H 0) (nth 6 H 0) (nth 7 H 0).

(** Steps 2 to 4 for one block: compress from the current state, then
    add the result to it word by word. *)
Definition process (H : list Z) (block : bytes) : list Z :=
  map (fun '(i, j) => add32 i j)
      (combine H (variables_of (rounds (schedule block) (working_of H)))).

Definition serialize (H : list Z) : bytes :=
  concat (map (big_endian 4) H).

Definition sha256 (m : bytes) : bytes :=
  serialize (fold_left process (parse (pad m)) H0).

End FIPS.

Definition abc : bytes := list_byte_of_string "abc".

(** The two-block message of the standard's examples (56 bytes). *)
Definition two_block_msg : bytes :=
  list_byte_of_string
    "abcdbcdecdefdefgefghfghighijhijkijkljklmklmnlmnomnopnopq".

(** All eight working variables are 32-bit words. *)
Definition words (v : working) : Prop :=
  FIPS.word (va v) /\ FIPS.word (vb v) /\ FIPS.word (vc v) /\ FIPS.word (vd v)
  /\ FIPS.word (ve v) /\ FIPS.word (vf v) /\ FIPS.word (vg v) /\ FIPS.word (vh v).

(** The integer held by entry [t] of a message schedule. *)
Definition word_at (msg_schedule : list bytes) (t : nat) : Z :=
  bytes_to_integer (nth t msg_schedule []).

(** What the loop at lines 98-109 maintains of the entries written so
    far: four bytes each, the first sixteen cut from the block, every later
    one the reduced sum of the four earlier entries named by the standard. *)
Definition schedule_ok (msg_block : bytes) (W : list bytes) : Prop :=
  Forall (fun w => length w = 4%nat) W
  /\ (forall t, (t < length W)%nat -> (t <= 15)%nat ->
        nth t W [] = slice msg_block (t * 4) (t * 4 + 4))
  /\ (forall t, (t < length W)%nat -> (16 <= t)%nat ->
        word_at W t
        = (FIPS.sig1 (word_at W (t - 2)) + word_at W (t - 7)
           + FIPS.sig0 (word_at W (t - 15)) + word_at W (t - 16)) mod 2 ^ 32).

(** The tolerance asked of [prime ** (1/n)]: 1024 multiples of 2^-52, that
    is an absolute error of at most 2^-42. *)
Definition pow_tolerance : Z := 1024.

(** A table entry [c] for the prime [p] survives every error of the root
    within [eps]: both ends of the error interval give [c]. *)
Definition entry_robust (eps n : Z) (pc : Z * Z) : bool :=
  let '(p, c) := pc in
  let r := exact_pow p n in
  (2 <=? p) && (p <=? 311)
  && ((r - eps) / 2 ^ 20 =? (r + eps) / 2 ^ 20)
  && (((r - eps) / 2 ^ 20) mod 2 ^ 32 =? c).

(** The schedule the inner loop builds for a block; the loop never raises
    ([prepare_schedule_total]). *)
Definition schedule_of (msg_block : bytes) : list bytes :=
  match prepare_schedule msg_block with
  | Ok W => W
  | Raise _ => []
  end.

(** Lines 112-133 run on the schedule of one block from the freshly
    generated initial hash value: the eight words
    [(H0[i] + compress(H0, schedule(block))[i]) mod 2^32], serialized. *)
Definition digest_from_seed (fpow : Z -> Z -> Z) (msg_block : bytes)
  : result bytes :=
  let key := gen_keys fpow in
  let hash_value := gen_initial_hash fpow in
  v <- unpack8 hash_value ;;
  v <- for_each (round_step key (Some (schedule_of msg_block))) (seq 0 64) v ;;
  let H := map (fun '(i, j) => (i + j) mod 2 ^ 32)
               (combine hash_value (variables_of v)) in
  words <- map_result integer_to_bytes H ;;
  Ok (concat words).

(** Line 136: [sha256(msg).hex()]. *)
Definition hexdigest (fpow : Z -> Z -> Z) (msg : bytes) : result string :=
  digest <- sha256 fpow msg ;; Ok (hex digest).

(** Two messages of one full block each; their padded forms have two
    blocks and differ in the first only. *)
Definition block_of_a : bytes := repeat x61 64.
Definition block_of_b : bytes := repeat x62 64.


(** * Properties *)

(** ** Bits of 32-bit words *)

Lemma word_high_bit (x i : Z) :
  FIPS.word x -> 32 <= i -> Z.testbit x i = false.
Proof.
  intros Hx Hi. unfold FIPS.word in Hx.
  rewrite <- (Z.mod_small x (2 ^ 32)) by exact Hx.
  apply Z.mod_pow2_bits_high. lia.
Qed.

Lemma mod32_word (x : Z) : FIPS.word (x mod 2 ^ 32).
Proof. unfold FIPS.word. apply Z.mod_pos_bound. reflexivity. Qed.

Lemma lxor_mod32 (x y : Z) :
  Z.lxor x y mod 2 ^ 32 = Z.lxor (x mod 2 ^ 32) (y mod 2 ^ 32).
Proof.
  apply Z.bits_inj'. intros i Hi.
  rewrite Z.lxor_spec, !Z.testbit_mod_pow2, Z.lxor_spec by lia.
  destruct (i <? 32); reflexivity.
Qed.

Lemma lxor_word (x y : Z) : FIPS.word x -> FIPS.word y -> FIPS.word (Z.lxor x y).
Proof.
  intros Hx Hy. unfold FIPS.word in *.
  rewrite <- (Z.mod_small x (2 ^ 32)), <- (Z.mod_small y (2 ^ 32)) by assumption.
  rewrite <- lxor_mod32. apply Z.mod_pos_bound. reflexivity.
Qed.

Lemma land_word_r (x y : Z) : FIPS.word y -> FIPS.word (Z.land x y).
Proof.
  intros Hy. unfold FIPS.word in *.
  assert (E : Z.land x y = Z.land x y mod 2 ^ 32).
  { apply Z.bits_inj'. intros i Hi.
    rewrite Z.testbit_mod_pow2, Z.land_spec by lia.
    destruct (Z.ltb_spec i 32) as [Hlt | Hge]; [reflexivity |].
    rewrite (word_high_bit y i) by (unfold FIPS.word; lia).
    now rewrite andb_false_r. }
  rewrite E. apply Z.mod_pos_bound. reflexivity.
Qed.

Lemma shr_word (x n : Z) : FIPS.word x -> 0 <= n -> FIPS.word (Z.shiftr x n).
Proof.
  intros Hx Hn. unfold FIPS.word in *. rewrite Z.shiftr_div_pow2 by exact Hn.
  assert (0 < 2 ^ n) by (apply Z.pow_pos_nonneg; lia).
  split.
  - apply Z.div_pos; lia.
  - apply Z.le_lt_trans with x; [| lia].
    apply Z.div_le_upper_bound; nia.
Qed.

(** The low 32 bits of the unmasked [rotr] are the rotated bits. *)
Lemma rotr_low_bits (x n i : Z) :
  FIPS.word x -> 0 < n < 32 -> 0 <= i < 32 ->
  Z.testbit (rotr x n 32) i = Z.testbit x ((i + n) mod 32).
Proof.
  intros Hx Hn Hi. unfold rotr.
  rewrite Z.lor_spec, Z.shiftr_spec, Z.shiftl_spec by lia.
  destruct (Z.lt_ge_cases (i + n) 32) as [Hlt | Hge].
  - rewrite Z.mod_small by lia.
    rewrite (Z.testbit_neg_r x (i - (32 - n))) by lia.
    apply orb_false_r.
  - rewrite (word_high_bit x (i + n)) by (assumption || lia).
    replace ((i + n) mod 32) with (i - (32 - n)); [reflexivity |].
    apply Z.mod_unique with 1; lia.
Qed.

Lemma rotr_mod32 (x n : Z) :
  FIPS.word x -> 0 < n < 32 -> rotr x n 32 mod 2 ^ 32 = FIPS.ROTR n x.
Proof.
  intros Hx Hn. unfold rotr, FIPS.ROTR.
  apply Z.bits_inj'. intros i Hi.
  rewrite Z.testbit_mod_pow2, !Z.lor_spec, Z.testbit_mod_pow2 by lia.
  destruct (Z.ltb_spec i 32) as [Hlt | Hge]; [reflexivity |].
  rewrite andb_false_l, orb_false_r.
  symmetry. apply word_high_bit; [| exact Hge].
  apply shr_word; [exact Hx | lia].
Qed.

Lemma ROTR_word (x n : Z) : FIPS.word x -> 0 < n < 32 -> FIPS.word (FIPS.ROTR n x).
Proof. intros Hx Hn. rewrite <- rotr_mod32 by assumption. apply mod32_word. Qed.

Lemma rotr_bounds (x n : Z) :
  FIPS.word x -> 0 < n < 32 -> 0 <= rotr x n 32 < 2 ^ (64 - n).
Proof.
  intros Hx Hn. unfold rotr. pose proof Hx as Hw. unfold FIPS.word in Hx.
  assert (Hr : FIPS.word (Z.shiftr x n)) by (apply shr_word; [assumption | lia]).
  unfold FIPS.word in Hr.
  assert (Hl : 0 <= Z.shiftl x (32 - n) < 2 ^ (64 - n)).
  { rewrite Z.shiftl_mul_pow2 by lia.
    replace (64 - n) with (32 + (32 - n)) by lia.
    rewrite Z.pow_add_r by lia.
    assert (0 < 2 ^ (32 - n)) by (apply Z.pow_pos_nonneg; lia). nia. }
  assert (H32 : 2 ^ 32 <= 2 ^ (64 - n)) by (apply Z.pow_le_mono_r; lia).
  split; [apply Z.lor_nonneg; lia |].
  generalize dependent (Z.shiftl x (32 - n)). generalize dependent (Z.shiftr x n).
  intros a Ha b Hb.
  destruct (Z.eq_dec (Z.lor a b) 0) as [E | NE].
  - rewrite E. apply Z.pow_pos_nonneg; lia.
  - assert (0 <= Z.lor a b) by (apply Z.lor_nonneg; lia).
    apply Z.log2_lt_pow2; [lia |].
    rewrite Z.log2_lor by lia.
    assert (La : Z.log2 a < 64 - n).
    { destruct (Z.eq_dec a 0) as [-> | ]; [change (Z.log2 0) with 0; lia |].
      apply Z.log2_lt_pow2; lia. }
    assert (Lb : Z.log2 b < 64 - n).
    { destruct (Z.eq_dec b 0) as [-> | ]; [change (Z.log2 0) with 0; lia |].
      apply Z.log2_lt_pow2; lia. }
    lia.
Qed.

Lemma NOT_lnot (x : Z) : FIPS.word x -> FIPS.NOT x = Z.lnot x mod 2 ^ 32.
Proof.
  intros Hx. unfold FIPS.word in Hx. unfold FIPS.NOT, Z.lnot.
  apply Z.mod_unique with (-1); lia.
Qed.

Lemma ch_FIPS (x y z : Z) : FIPS.word x -> FIPS.word z -> ch x y z = FIPS.Ch x y z.
Proof.
  intros Hx Hz. unfold ch, FIPS.Ch. f_equal.
  rewrite (NOT_lnot x Hx).
  apply Z.bits_inj'. intros i Hi.
  rewrite !Z.land_spec, Z.testbit_mod_pow2 by lia.
  destruct (Z.ltb_spec i 32) as [Hlt | Hge]; [reflexivity |].
  rewrite (word_high_bit z i) by assumption.
  now rewrite !andb_false_r.
Qed.

Lemma maj_FIPS (x y z : Z) : maj x y z = FIPS.Maj x y z.
Proof. reflexivity. Qed.

Lemma summation0_mod32 (x : Z) : FIPS.word x -> summation0 x mod 2 ^ 32 = FIPS.Sum0 x.
Proof.
  intros Hx. unfold summation0, FIPS.Sum0.
  rewrite !lxor_mod32, !rotr_mod32 by (assumption || lia). reflexivity.
Qed.

Lemma summation1_mod32 (x : Z) : FIPS.word x -> summation1 x mod 2 ^ 32 = FIPS.Sum1 x.
Proof.
  intros Hx. unfold summation1, FIPS.Sum1.
  rewrite !lxor_mod32, !rotr_mod32 by (assumption || lia). reflexivity.
Qed.

Lemma sigma0_mod32 (x : Z) : FIPS.word x -> sigma0 x mod 2 ^ 32 = FIPS.sig0 x.
Proof.
  intros Hx. unfold sigma0, FIPS.sig0, shr, FIPS.SHR.
  rewrite !lxor_mod32, !rotr_mod32 by (assumption || lia).
  f_equal. apply Z.mod_small. apply shr_word; [assumption | lia].
Qed.

Lemma sigma1_mod32 (x : Z) : FIPS.word x -> sigma1 x mod 2 ^ 32 = FIPS.sig1 x.
Proof.
  intros Hx. unfold sigma1, FIPS.sig1, shr, FIPS.SHR.
  rewrite !lxor_mod32, !rotr_mod32 by (assumption || lia).
  f_equal. apply Z.mod_small. apply shr_word; [assumption | lia].
Qed.

(** ** Byte strings and integers *)

Lemma Z_of_byte_range (b : byte) : 0 <= Z_of_byte b < 256.
Proof.
  unfold Z_of_byte. pose proof (Byte.to_N_bounded b). lia.
Qed.

Lemma Z_of_byte_of_Z (z : Z) : 0 <= z < 256 -> Z_of_byte (byte_of_Z z) = z.
Proof.
  intros Hz. unfold byte_of_Z, Z_of_byte.
  destruct (Byte.of_N (Z.to_N z)) as [b |] eqn:E.
  - apply Byte.to_of_N in E. rewrite E. lia.
  - apply Byte.of_N_None_iff in E. lia.
Qed.

Lemma from_bytes_fold (x : bytes) (acc : Z) :
  fold_left (fun acc b => acc * 256 + Z_of_byte b) x acc
  = acc * 256 ^ Z.of_nat (length x) + from_bytes_big x.
Proof.
  unfold from_bytes_big. revert acc.
  induction x as [| b x IH]; intros acc.
  - simpl. lia.
  - cbn [fold_left length]. rewrite IH, (IH (0 * 256 + Z_of_byte b)).
    rewrite Nat2Z.inj_succ, Z.pow_succ_r by lia. ring.
Qed.

Lemma from_bytes_cons (b : byte) (x : bytes) :
  from_bytes_big (b :: x)
  = Z_of_byte b * 256 ^ Z.of_nat (length x) + from_bytes_big x.
Proof.
  unfold from_bytes_big at 1. cbn [fold_left]. rewrite from_bytes_fold. ring.
Qed.

Lemma from_bytes_range (x : bytes) :
  0 <= from_bytes_big x < 256 ^ Z.of_nat (length x).
Proof.
  induction x as [| b x IH].
  - cbn. lia.
  - rewrite from_bytes_cons. cbn [length].
    rewrite Nat2Z.inj_succ, Z.pow_succ_r by lia.
    pose proof (Z_of_byte_range b). nia.
Qed.

Lemma big_endian_length (n : nat) (x : Z) : length (big_endian n x) = n.
Proof. induction n as [| n IH]; cbn [big_endian length]; congruence. Qed.

Lemma from_bytes_big_endian (n : nat) (x : Z) :
  from_bytes_big (big_endian n x) = x mod 256 ^ Z.of_nat n.
Proof.
  induction n as [| n IH].
  - cbn. now rewrite Z.mod_1_r.
  - cbn [big_endian]. rewrite from_bytes_cons, big_endian_length, IH.
    assert (Hp : 0 < 256 ^ Z.of_nat n) by (apply Z.pow_pos_nonneg; lia).
    rewrite Z_of_byte_of_Z by (apply Z.mod_pos_bound; lia).
    rewrite Nat2Z.inj_succ, Z.pow_succ_r by lia.
    rewrite (Z.mul_comm 256), Z.rem_mul_r by lia. ring.
Qed.

Lemma to_bytes_big_ok (x : Z) (n : nat) :
  0 <= x < 256 ^ Z.of_nat n -> to_bytes_big x n = Ok (big_endian n x).
Proof.
  intros Hx. unfold to_bytes_big.
  destruct (Z.ltb_spec x 0); [lia |].
  destruct (Z.leb_spec (256 ^ Z.of_nat n) x); [lia | reflexivity].
Qed.

Lemma integer_to_bytes_ok (x : Z) :
  FIPS.word x -> integer_to_bytes x = Ok (big_endian 4 x).
Proof. intros Hx. apply to_bytes_big_ok. exact Hx. Qed.

Lemma bytes_to_integer_word (w : bytes) :
  length w = 4%nat -> FIPS.word (bytes_to_integer w).
Proof.
  intros Hw. pose proof (from_bytes_range w) as H. rewrite Hw in H. exact H.
Qed.

Lemma bytes_to_integer_big_endian (x : Z) :
  FIPS.word x -> bytes_to_integer (big_endian 4 x) = x.
Proof.
  intros Hx. unfold bytes_to_integer. rewrite from_bytes_big_endian.
  apply Z.mod_small. exact Hx.
Qed.

(** ** Loops *)

Lemma for_each_app {S I : Type} (body : S -> I -> result S)
  (l1 l2 : list I) (s : S) :
  for_each body (l1 ++ l2) s
  = (s' <- for_each body l1 s ;; for_each body l2 s').
Proof.
  revert s. induction l1 as [| i l1 IH]; intros s; cbn [for_each app bind].
  - reflexivity.
  - destruct (body s i) as [s' | e]; cbn [bind]; [apply IH | reflexivity].
Qed.

Lemma index_nth {A : Type} (l : list A) (i : nat) (d : A) :
  (i < length l)%nat -> index l i = Ok (nth i l d).
Proof.
  intros Hi. unfold index. now rewrite (nth_error_nth' l d Hi).
Qed.

(** Sums that agree term by term modulo 2^32 agree modulo 2^32. *)
Lemma add_mod32_congr (a a' b b' : Z) :
  a mod 2 ^ 32 = a' mod 2 ^ 32 -> b mod 2 ^ 32 = b' mod 2 ^ 32 ->
  (a + b) mod 2 ^ 32 = (a' + b') mod 2 ^ 32.
Proof.
  intros Ha Hb.
  rewrite (Z.add_mod a b), (Z.add_mod a' b') by discriminate.
  now rewrite Ha, Hb.
Qed.

Lemma mod32_idem (a : Z) : (a mod 2 ^ 32) mod 2 ^ 32 = a mod 2 ^ 32.
Proof. apply Z.mod_mod. discriminate. Qed.

Create HintDb mod32.
#[local] Hint Resolve add_mod32_congr mod32_idem mod32_word : mod32.

(** ** The compression round *)

Lemma round_words (v : working) (Kt Wt : Z) : words v -> words (FIPS.round v Kt Wt).
Proof.
  destruct v as [a b c d e f g h]. unfold words.
  cbn [FIPS.round va vb vc vd ve vf vg vh].
  intros (Ha & Hb & Hc & Hd & He & Hf & Hg & Hh).
  repeat (split; [first [assumption | apply mod32_word] |]). assumption.
Qed.

Lemma temp_1_mod32 (e f g h k w : Z) :
  FIPS.word e -> FIPS.word g ->
  (h + summation1 e + ch e f g + k + w mod 2 ^ 32) mod 2 ^ 32
  = (h + FIPS.Sum1 e + FIPS.Ch e f g + k + w) mod 2 ^ 32.
Proof.
  intros He Hg. rewrite <- (summation1_mod32 e He), (ch_FIPS e f g He Hg).
  auto 10 with mod32.
Qed.

Lemma temp_2_mod32 (a b c : Z) :
  FIPS.word a ->
  (summation0 a + maj a b c mod 2 ^ 32) mod 2 ^ 32
  = (FIPS.Sum0 a + FIPS.Maj a b c) mod 2 ^ 32.
Proof.
  intros Ha. rewrite <- (summation0_mod32 a Ha), maj_FIPS.
  auto 10 with mod32.
Qed.

Lemma round_step_FIPS (key : list Z) (W : list bytes) (v : working) (t : nat) :
  (t < length key)%nat -> (t < length W)%nat -> words v ->
  round_step key (Some W) v t = Ok (FIPS.round v (nth t key 0) (word_at W t)).
Proof.
  intros Hk HW Hv. destruct v as [a b c d e f g h].
  destruct Hv as (Ha & Hb & Hc & Hd & He & Hf & Hg & Hh).
  cbn [va vb vc vd ve vf vg vh] in *. cbn [round_step FIPS.round].
  rewrite (index_nth key t 0 Hk). cbn [bind read_name].
  rewrite (index_nth W t [] HW). cbn [bind]. unfold word_at.
  do 2 f_equal.
  - apply add_mod32_congr.
    + rewrite mod32_idem. now apply temp_1_mod32.
    + rewrite mod32_idem. now apply temp_2_mod32.
  - apply add_mod32_congr; [reflexivity |].
    rewrite mod32_idem. now apply temp_1_mod32.
Qed.

(** ** The message schedule *)

Lemma slice_length {A : Type} (x : list A) (i j : nat) :
  (i <= j)%nat -> (j <= length x)%nat -> length (slice x i j) = (j - i)%nat.
Proof.
  intros Hij Hj. unfold slice. rewrite length_firstn, length_skipn. lia.
Qed.

Lemma word_at_app1 (W l : list bytes) (j : nat) :
  (j < length W)%nat -> word_at (W ++ l) j = word_at W j.
Proof. intros Hj. unfold word_at. now rewrite app_nth1. Qed.

Lemma word_at_last (W : list bytes) (w : bytes) :
  word_at (W ++ [w]) (length W) = bytes_to_integer w.
Proof. unfold word_at. now rewrite nth_middle. Qed.

Lemma word_at_word (W : list bytes) (j : nat) :
  Forall (fun w => length w = 4%nat) W -> (j < length W)%nat ->
  FIPS.word (word_at W j).
Proof.
  intros HW Hj. unfold word_at. apply bytes_to_integer_word.
  rewrite Forall_forall in HW. apply HW. now apply nth_In.
Qed.

Lemma schedule_ok_snoc (msg_block : bytes) (W : list bytes) (w : bytes) :
  schedule_ok msg_block W -> length w = 4%nat ->
  ((length W <= 15)%nat -> w = slice msg_block (length W * 4) (length W * 4 + 4)) ->
  ((16 <= length W)%nat ->
     bytes_to_integer w
     = (FIPS.sig1 (word_at W (length W - 2)) + word_at W (length W - 7)
        + FIPS.sig0 (word_at W (length W - 15)) + word_at W (length W - 16))
         mod 2 ^ 32) ->
  schedule_ok msg_block (W ++ [w]).
Proof.
  intros (H4 & Hlo & Hhi) Hw Hfirst Hlater. unfold schedule_ok.
  rewrite length_app. cbn [length]. repeat split.
  - apply Forall_app. split; [exact H4 | now constructor].
  - intros t Ht Ht15.
    destruct (Nat.eq_dec t (length W)) as [-> | Hne].
    + rewrite nth_middle. now apply Hfirst.
    + rewrite app_nth1 by lia. apply Hlo; lia.
  - intros t Ht Ht16.
    destruct (Nat.eq_dec t (length W)) as [-> | Hne].
    + rewrite word_at_last, !word_at_app1 by lia. now apply Hlater.
    + rewrite !word_at_app1 by lia. apply Hhi; lia.
Qed.

Lemma schedule_step_ok (msg_block : bytes) (W : list bytes) (t : nat) :
  length msg_block = 64%nat -> length W = t -> (t < 64)%nat ->
  schedule_ok msg_block W ->
  exists w, schedule_step msg_block W t = Ok (W ++ [w])
            /\ schedule_ok msg_block (W ++ [w]).
Proof.
  intros Hb HW Ht Hok. unfold schedule_step.
  destruct (Nat.leb_spec t 15) as [Hle | Hgt].
  - eexists. split; [reflexivity |].
    apply schedule_ok_snoc; try assumption.
    + rewrite slice_length; lia.
    + intros _. now rewrite HW.
    + intros H16. lia.
  - pose proof Hok as (H4 & _ & _).
    rewrite (index_nth W (t - 2) []), (index_nth W (t - 7) []),
      (index_nth W (t - 15) []), (index_nth W (t - 16) []) by lia.
    cbn [bind]. fold (word_at W (t - 2)) (word_at W (t - 7))
      (word_at W (t - 15)) (word_at W (t - 16)).
    rewrite integer_to_bytes_ok by apply mod32_word. cbn [bind].
    eexists. split; [reflexivity |].
    apply schedule_ok_snoc; try assumption.
    + apply big_endian_length.
    + intros H15. lia.
    + intros _. rewrite bytes_to_integer_big_endian by apply mod32_word.
      rewrite HW.
      rewrite <- (sigma1_mod32 (word_at W (t - 2)))
        by (apply word_at_word; [assumption | lia]).
      rewrite <- (sigma0_mod32 (word_at W (t - 15)))
        by (apply word_at_word; [assumption | lia]).
      auto 10 with mod32.
Qed.

Lemma schedule_prefix_ok (msg_block : bytes) (t : nat) :
  length msg_block = 64%nat -> (t <= 64)%nat ->
  exists W, for_each (schedule_step msg_block) (seq 0 t) [] = Ok W
            /\ length W = t /\ schedule_ok msg_block W.
Proof.
  intros Hb. induction t as [| t IH]; intros Ht.
  - exists []. repeat split; cbn; try constructor; intros; lia.
  - destruct IH as (W & Hrun & HW & Hok); [lia |].
    destruct (schedule_step_ok msg_block W t Hb HW) as (w & Hstep & Hok');
      [lia | exact Hok |].
    exists (W ++ [w]). repeat split.
    + rewrite seq_S, for_each_app, Hrun. cbn [bind for_each Nat.add].
      rewrite Hstep. reflexivity.
    + rewrite length_app, HW. cbn. lia.
    + apply Hok'.
    + apply Hok'.
    + apply Hok'.
Qed.

Lemma prepare_schedule_ok (msg_block : bytes) :
  length msg_block = 64%nat ->
  exists W, prepare_schedule msg_block = Ok W
            /\ length W = 64%nat /\ schedule_ok msg_block W.
Proof. intros Hb. now apply schedule_prefix_ok. Qed.

Lemma block_words_schedule (msg_block : bytes) (W : list bytes) :
  (16 <= length W)%nat -> schedule_ok msg_block W ->
  map (word_at W) (seq 0 16) = FIPS.block_words msg_block.
Proof.
  intros HW (_ & Hlo & _). unfold FIPS.block_words.
  apply map_ext_in. intros t Ht. apply in_seq in Ht.
  unfold word_at, bytes_to_integer. rewrite Hlo by lia.
  unfold slice. do 3 f_equal; lia.
Qed.

(** C5. For every 64-byte block the schedule loop ends without raising
    with exactly 64 entries; entry t for t = 0..15 is bytes 4t..4t+3 of the
    block, so the first sixteen words are the block read as big-endian
    32-bit words in order; and for t = 16..63 the word is
    (sig1(W[t-2]) + W[t-7] + sig0(W[t-15]) + W[t-16]) mod 2^32, with the
    32-bit sigma functions of the standard. *)
Theorem C5_message_schedule (msg_block : bytes) :
  length msg_block = 64%nat ->
  exists W,
    prepare_schedule msg_block = Ok W
    /\ length W = 64%nat
    /\ (forall t, (t <= 15)%nat ->
          nth t W [] = slice msg_block (t * 4) (t * 4 + 4))
    /\ map (word_at W) (seq 0 16) = FIPS.block_words msg_block
    /\ (forall t, (16 <= t <= 63)%nat ->
          word_at W t
          = (FIPS.sig1 (word_at W (t - 2)) + word_at W (t - 7)
             + FIPS.sig0 (word_at W (t - 15)) + word_at W (t - 16))
              mod 2 ^ 32).
Proof.
  intros Hb.
  destruct (prepare_schedule_ok msg_block Hb) as (W & Hrun & HW & Hok).
  exists W. split; [exact Hrun |]. split; [exact HW |].
  pose proof Hok as (_ & Hlo & Hhi).
  split; [| split].
  - intros t Ht. apply Hlo; lia.
  - apply block_words_schedule; [lia | exact Hok].
  - intros t Ht. apply Hhi; lia.
Qed.

(** ** Padding *)

Lemma pad_exit_test (len : nat) :
  (Z.of_nat len * 8) mod 512 = 448 <-> (56 - Z.of_nat len) mod 64 = 0.
Proof. split; intros H; Z.div_mod_to_equations; lia. Qed.

(** The loop appends exactly the zeros that are missing, provided the fuel
    covers them; they are fewer than 64. *)
Lemma while_pad_zeros (fuel : nat) (msg : bytes) :
  (Z.to_nat ((56 - Z.of_nat (length msg)) mod 64) <= fuel)%nat ->
  while_pad fuel msg
  = msg ++ repeat x00 (Z.to_nat ((56 - Z.of_nat (length msg)) mod 64)).
Proof.
  revert msg. induction fuel as [| fuel IH]; intros msg Hfuel.
  - assert (E : (56 - Z.of_nat (length msg)) mod 64 = 0)
      by (pose proof (Z.mod_pos_bound (56 - Z.of_nat (length msg)) 64); lia).
    cbn [while_pad]. rewrite E.
    apply pad_exit_test in E. rewrite E, Z.eqb_refl.
    cbn. now rewrite app_nil_r.
  - cbn [while_pad].
    destruct (Z.eqb_spec ((Z.of_nat (length msg) * 8) mod 512) 448) as [E | NE];
      cbn [negb].
    + apply pad_exit_test in E. rewrite E. cbn. now rewrite app_nil_r.
    + rewrite pad_exit_test in NE.
      assert (Hk : (56 - Z.of_nat (length (msg ++ [x00]))) mod 64
                   = (56 - Z.of_nat (length msg)) mod 64 - 1).
      { rewrite length_app. cbn [length]. Z.div_mod_to_equations. lia. }
      rewrite IH by lia. rewrite Hk, <- app_assoc. f_equal.
      pose proof (Z.mod_pos_bound (56 - Z.of_nat (length msg)) 64).
      replace (Z.to_nat ((56 - Z.of_nat (length msg)) mod 64))
        with (S (Z.to_nat ((56 - Z.of_nat (length msg)) mod 64 - 1))) by lia.
      reflexivity.
Qed.

Lemma zero_bytes_lt (len : nat) : (FIPS.zero_bytes len < 64)%nat.
Proof.
  unfold FIPS.zero_bytes.
  pose proof (Z.mod_pos_bound (55 - Z.of_nat len) 64). lia.
Qed.

(** The loop stops by its own test, never by lack of fuel. *)
Lemma while_pad_exit (fuel : nat) (msg : bytes) :
  (63 <= fuel)%nat ->
  (Z.of_nat (length (while_pad fuel msg)) * 8) mod 512 = 448
  /\ while_pad fuel msg = while_pad 63 msg.
Proof.
  intros Hfuel.
  pose proof (Z.mod_pos_bound (56 - Z.of_nat (length msg)) 64).
  rewrite !while_pad_zeros by lia. split; [| reflexivity].
  rewrite length_app, repeat_length. Z.div_mod_to_equations. lia.
Qed.

Lemma padding_shape (m : bytes) :
  Z.of_nat (length m) * 8 < 2 ^ 64 ->
  padding m
  = Ok (m ++ [x80] ++ repeat x00 (FIPS.zero_bytes (length m))
          ++ big_endian 8 (Z.of_nat (length m) * 8)).
Proof.
  intros Hl. unfold padding.
  rewrite to_bytes_big_ok by (change (256 ^ Z.of_nat 8) with (2 ^ 64); lia).
  cbn [bind].
  pose proof (Z.mod_pos_bound (56 - Z.of_nat (length (m ++ [x80]))) 64).
  rewrite while_pad_zeros by lia.
  rewrite length_app. cbn [length]. unfold FIPS.zero_bytes.
  replace (56 - Z.of_nat (length m + 1)) with (55 - Z.of_nat (length m)) by lia.
  now rewrite <- !app_assoc.
Qed.

Lemma padding_FIPS (m : bytes) :
  Z.of_nat (length m) * 8 < 2 ^ 64 -> padding m = Ok (FIPS.pad m).
Proof. exact (padding_shape m). Qed.

(** Beyond the 64-bit length field the length does not fit its 8 bytes. *)
Lemma padding_overflow (m : bytes) :
  2 ^ 64 <= Z.of_nat (length m) * 8 -> padding m = Raise OverflowError.
Proof.
  intros Hl. unfold padding, to_bytes_big.
  destruct (Z.ltb_spec (Z.of_nat (length m) * 8) 0); [reflexivity |].
  change (256 ^ Z.of_nat 8) with (2 ^ 64).
  destruct (Z.leb_spec (2 ^ 64) (Z.of_nat (length m) * 8)); [reflexivity | lia].
Qed.

Lemma pad_length (m : bytes) :
  length (FIPS.pad m)
  = (length m + 1 + FIPS.zero_bytes (length m) + 8)%nat.
Proof.
  unfold FIPS.pad.
  rewrite !length_app, repeat_length, big_endian_length. cbn [length]. lia.
Qed.

Lemma pad_length_blocks (m : bytes) :
  exists n, length (FIPS.pad m) = (64 * S n)%nat.
Proof.
  rewrite pad_length. unfold FIPS.zero_bytes.
  pose proof (Z.mod_pos_bound (55 - Z.of_nat (length m)) 64).
  exists (Z.to_nat ((Z.of_nat (length m) + 1
                     + (55 - Z.of_nat (length m)) mod 64 + 8) / 64 - 1)).
  Z.div_mod_to_equations. lia.
Qed.

(** C4. For every input whose bit length fits the 64-bit length field,
    padding returns the input, then the byte 0x80, then k bytes 0x00, then
    the bit length of the input on 8 bytes, big-endian; k is the least
    number of zero bytes that brings the bit length to 448 modulo 512; the
    length of the result is a multiple of 64; for a 55-byte input k = 0. *)
Theorem C4_padding (m : bytes) :
  Z.of_nat (length m) * 8 < 2 ^ 64 ->
  exists (k : nat) (p : bytes),
    padding m = Ok p
    /\ p = m ++ [x80] ++ repeat x00 k
             ++ big_endian 8 (Z.of_nat (length m) * 8)
    /\ length (big_endian 8 (Z.of_nat (length m) * 8)) = 8%nat
    /\ from_bytes_big (big_endian 8 (Z.of_nat (length m) * 8))
       = Z.of_nat (length m) * 8
    /\ (Z.of_nat (length m + 1 + k) * 8) mod 512 = 448
    /\ (forall j, (j < k)%nat ->
          (Z.of_nat (length m + 1 + j) * 8) mod 512 <> 448)
    /\ (length p mod 64 = 0)%nat
    /\ (length m = 55%nat -> k = 0%nat).
Proof.
  intros Hl. exists (FIPS.zero_bytes (length m)), (FIPS.pad m).
  split; [now apply padding_FIPS |]. split; [reflexivity |].
  split; [apply big_endian_length |].
  split.
  { rewrite from_bytes_big_endian. apply Z.mod_small.
    change (256 ^ Z.of_nat 8) with (2 ^ 64). lia. }
  pose proof (Z.mod_pos_bound (55 - Z.of_nat (length m)) 64) as Hk.
  split; [| split; [| split]].
  - unfold FIPS.zero_bytes. Z.div_mod_to_equations. lia.
  - unfold FIPS.zero_bytes. intros j Hj. Z.div_mod_to_equations. lia.
  - destruct (pad_length_blocks m) as (n & ->).
    rewrite Nat.mul_comm. apply Nat.Div0.mod_mul.
  - intros H55. unfold FIPS.zero_bytes. now rewrite H55.
Qed.

(** ** The constant tables *)

Lemma bisect_spec (fuel : nat) (n x lo hi : Z) :
  0 <= lo < hi -> lo ^ n <= x < hi ^ n -> hi - lo <= 2 ^ Z.of_nat fuel ->
  let r := bisect fuel n x lo hi in
  0 <= r /\ r ^ n <= x < (r + 1) ^ n.
Proof.
  revert lo hi. induction fuel as [| fuel IH]; intros lo hi Hlo Hx Hsize.
  - cbn [bisect]. change (2 ^ Z.of_nat 0) with 1 in Hsize.
    replace (lo + 1) with hi by lia. lia.
  - cbn [bisect]. destruct (Z.leb_spec (hi - lo) 1) as [Hle | Hgt].
    + replace (lo + 1) with hi by lia. cbn zeta. lia.
    + rewrite Nat2Z.inj_succ, Z.pow_succ_r in Hsize by lia.
      assert (Hmid : lo < (lo + hi) / 2 < hi)
        by (Z.div_mod_to_equations; lia).
      destruct (Z.leb_spec (((lo + hi) / 2) ^ n) x) as [Hm | Hm].
      * apply IH; [lia | lia |]. Z.div_mod_to_equations. lia.
      * apply IH; [lia | lia |]. Z.div_mod_to_equations. lia.
Qed.

(** [iroot n x] is the integer part of the n-th root of [x]. *)
Lemma iroot_spec (n x : Z) :
  0 < n -> 0 <= x ->
  0 <= iroot n x /\ iroot n x ^ n <= x < (iroot n x + 1) ^ n.
Proof.
  intros Hn Hx. unfold iroot. apply bisect_spec.
  - lia.
  - split.
    + rewrite Z.pow_0_l by lia. exact Hx.
    + replace n with (Z.succ (n - 1)) by lia. rewrite Z.pow_succ_r by lia.
      assert (1 <= (x + 1) ^ (n - 1)).
      { rewrite <- (Z.pow_1_l (n - 1)) at 1 by lia.
        apply Z.pow_le_mono_l. lia. }
      nia.
  - rewrite Nat2Z.inj_succ, Z.pow_succ_r by lia.
    destruct (Z.eq_dec x 0) as [-> | Hne].
    + cbn. lia.
    + rewrite Z2Nat.id by apply Z.log2_up_nonneg.
      pose proof (Z.log2_up_spec (x + 1)). lia.
Qed.

(** The three float operations after the root, on a double [m / 2^52]. *)
Lemma fraction_word (m : Z) :
  ((m - (m / double_one) * double_one) * 16 ^ 8) / double_one
  = (m / 2 ^ 20) mod 2 ^ 32.
Proof.
  unfold double_one.
  change (2 ^ 52) with 4503599627370496. change (16 ^ 8) with 4294967296.
  change (2 ^ 20) with 1048576. change (2 ^ 32) with 4294967296.
  Z.div_mod_to_equations. lia.
Qed.

Lemma convert_robust (fpow : Z -> Z -> Z) (n p c : Z) :
  pow_accurate pow_tolerance fpow -> n = 2 \/ n = 3 ->
  entry_robust pow_tolerance n (p, c) = true ->
  convert_prime_fraction_to_hex fpow p n 8 = c.
Proof.
  intros Hacc Hn Hrob. unfold entry_robust in Hrob.
  apply andb_prop in Hrob as [Hrob Hc]. apply andb_prop in Hrob as [Hrob Heq].
  apply andb_prop in Hrob as [Hp2 Hp311].
  apply Z.leb_le in Hp2, Hp311. apply Z.eqb_eq in Heq, Hc.
  unfold convert_prime_fraction_to_hex. rewrite fraction_word.
  specialize (Hacc p n (conj Hp2 Hp311) Hn).
  assert (Hlo : (exact_pow p n - pow_tolerance) / 2 ^ 20 <= fpow p n / 2 ^ 20)
    by (apply Z.div_le_mono; lia).
  assert (Hhi : fpow p n / 2 ^ 20 <= (exact_pow p n + pow_tolerance) / 2 ^ 20)
    by (apply Z.div_le_mono; lia).
  replace (fpow p n / 2 ^ 20)
    with ((exact_pow p n - pow_tolerance) / 2 ^ 20) by lia.
  exact Hc.
Qed.

Lemma table_robust (fpow : Z -> Z -> Z) (n : Z) (primes table : list Z) :
  pow_accurate pow_tolerance fpow -> n = 2 \/ n = 3 ->
  length primes = length table ->
  forallb (entry_robust pow_tolerance n) (combine primes table) = true ->
  map (fun p => convert_prime_fraction_to_hex fpow p n 8) primes = table.
Proof.
  intros Hacc Hn. revert table.
  induction primes as [| p primes IH]; intros [| c table] Hlen Hall;
    try discriminate; [reflexivity |].
  cbn [combine forallb] in Hall. apply andb_prop in Hall as [Hpc Hall].
  cbn [map]. f_equal.
  - now apply convert_robust.
  - apply IH; [now injection Hlen | exact Hall].
Qed.

Lemma gen_keys_FIPS (fpow : Z -> Z -> Z) :
  pow_accurate pow_tolerance fpow -> gen_keys fpow = FIPS.K.
Proof.
  intros Hacc. unfold gen_keys.
  apply table_robust; [exact Hacc | now right | | ]; now vm_compute.
Qed.

Lemma gen_initial_hash_FIPS (fpow : Z -> Z -> Z) :
  pow_accurate pow_tolerance fpow -> gen_initial_hash fpow = FIPS.H0.
Proof.
  intros Hacc. unfold gen_initial_hash.
  apply table_robust; [exact Hacc | now left | | ]; now vm_compute.
Qed.

Lemma exact_pow_accurate : pow_accurate pow_tolerance exact_pow.
Proof.
  intros p n _ _. rewrite Z.sub_diag. unfold pow_tolerance. cbn. lia.
Qed.

Lemma gen_keys_length (fpow : Z -> Z -> Z) : length (gen_keys fpow) = 64%nat.
Proof. unfold gen_keys. rewrite length_map. now vm_compute. Qed.

Lemma gen_initial_hash_length (fpow : Z -> Z -> Z) :
  length (gen_initial_hash fpow) = 8%nat.
Proof. unfold gen_initial_hash. rewrite length_map. now vm_compute. Qed.

(** More fuel than the search needs changes nothing. *)
Lemma primes_from_fuel (fuel extra : nat) (c : Z) (n : nat) :
  length (primes_from fuel c n) = n ->
  primes_from (fuel + extra) c n = primes_from fuel c n.
Proof.
  revert c n. induction fuel as [| fuel IH]; intros c [| n] Hlen;
    try reflexivity.
  - destruct extra; reflexivity.
  - discriminate.
  - cbn [primes_from Nat.add] in *.
    destruct (trial_division c).
    + f_equal. apply IH. cbn [length] in Hlen. now injection Hlen.
    + now apply IH.
Qed.

(** C8. Provided the platform's [prime ** (1/n)] is within 2^-42 of the
    real root, the generated tables are the tables of FIPS 180-4: gen_keys
    returns its 64 round constants, the first being 0x428a2f98, and
    gen_initial_hash its 8 initial hash words, the first being 0x6a09e667;
    each word is floor(frac(p^(1/n)) * 2^32) for the corresponding prime,
    the primes being those up to 311 (respectively 19) in order. *)
Theorem C8_constant_tables (fpow : Z -> Z -> Z) :
  pow_accurate pow_tolerance fpow ->
  gen_keys fpow = FIPS.K
  /\ length (gen_keys fpow) = 64%nat
  /\ nth 0 (gen_keys fpow) 0 = 0x428A2F98
  /\ gen_initial_hash fpow = FIPS.H0
  /\ length (gen_initial_hash fpow) = 8%nat
  /\ nth 0 (gen_initial_hash fpow) 0 = 0x6A09E667
  /\ gen_keys fpow = map (fun p => frac_root_word p 3) (generate_n_primes 64)
  /\ gen_initial_hash fpow
     = map (fun p => frac_root_word p 2) (generate_n_primes 8)
  /\ generate_n_primes 64 = filter trial_division (range 2 312)
  /\ generate_n_primes 8 = filter trial_division (range 2 20).
Proof.
  intros Hacc.
  rewrite (gen_keys_FIPS fpow Hacc), (gen_initial_hash_FIPS fpow Hacc).
  do 9 (split; [vm_compute; reflexivity |]). vm_compute; reflexivity.
Qed.

(** ** Parsing *)

Lemma parsing_chunks (msg : bytes) :
  parsing msg
  = map (fun k => firstn 64 (skipn (64 * k) msg))
        (seq 0 ((length msg + 63) / 64)).
Proof.
  unfold parsing, range_step. rewrite map_map.
  replace (Z.to_nat ((Z.of_nat (length msg) - 0 + 64 - 1) / 64))
    with ((length msg + 63) / 64)%nat.
  - apply map_ext. intros k. unfold slice. f_equal; [lia | f_equal; lia].
  - rewrite <- (Nat2Z.id ((length msg + 63) / 64)). f_equal.
    rewrite Nat2Z.inj_div. f_equal. lia.
Qed.

Lemma parsing_cons (block rest : bytes) :
  length block = 64%nat -> parsing (block ++ rest) = block :: parsing rest.
Proof.
  intros Hb. rewrite !parsing_chunks, length_app, Hb.
  replace ((64 + length rest + 63) / 64)%nat
    with (S ((length rest + 63) / 64)).
  - cbn [seq map]. apply (f_equal2 cons).
    + rewrite Nat.mul_0_r. cbn [skipn].
      rewrite firstn_app, Hb, Nat.sub_diag, firstn_O, app_nil_r.
      apply firstn_all2. lia.
    + rewrite <- seq_shift, map_map. apply map_ext. intros k.
      f_equal. rewrite skipn_app, Hb.
      rewrite skipn_all2 by lia. cbn [app]. f_equal. lia.
  - replace (64 + length rest + 63)%nat with (1 * 64 + (length rest + 63))%nat
      by lia.
    rewrite Nat.div_add_l by lia. lia.
Qed.

Lemma parsing_nonempty (msg : bytes) : msg <> [] -> parsing msg <> [].
Proof.
  intros Hne. rewrite parsing_chunks.
  destruct msg as [| b msg]; [congruence |]. cbn [length].
  replace ((S (length msg) + 63) / 64)%nat with (S (length msg / 64)).
  - discriminate.
  - replace (S (length msg) + 63)%nat with (1 * 64 + length msg)%nat by lia.
    rewrite Nat.div_add_l by lia. lia.
Qed.

Lemma Ok_inj {A : Type} (x y : A) : Ok x = Ok y -> x = y.
Proof. intros H. now inversion H. Qed.

Lemma padding_nonempty (m p : bytes) : padding m = Ok p -> p <> [].
Proof.
  unfold padding. destruct (to_bytes_big _ 8) as [tail |] eqn:E;
    cbn [bind]; [| discriminate].
  intros Hp Hnil. apply Ok_inj in Hp. rewrite Hnil in Hp.
  apply app_eq_nil in Hp as [_ Htail]. rewrite Htail in E.
  unfold to_bytes_big in E.
  destruct (_ <? 0); [discriminate E |].
  destruct (_ <=? _); [discriminate E |].
  apply Ok_inj in E. apply (f_equal (@length byte)) in E.
  rewrite big_endian_length in E. discriminate E.
Qed.

(** ** The loop over the blocks *)

Lemma schedule_step_total (msg_block : bytes) (W : list bytes) (t : nat) :
  length W = t ->
  exists w, schedule_step msg_block W t = Ok (W ++ [w]).
Proof.
  intros HW. unfold schedule_step.
  destruct (Nat.leb_spec t 15) as [Hle | Hgt].
  - eexists. reflexivity.
  - rewrite (index_nth W (t - 2) []), (index_nth W (t - 7) []),
      (index_nth W (t - 15) []), (index_nth W (t - 16) []) by lia.
    cbn [bind]. rewrite integer_to_bytes_ok by apply mod32_word.
    eexists. reflexivity.
Qed.

Lemma schedule_prefix_total (msg_block : bytes) (t : nat) :
  exists W, for_each (schedule_step msg_block) (seq 0 t) [] = Ok W
            /\ length W = t.
Proof.
  induction t as [| t (W & Hrun & HW)].
  - exists []. now split.
  - destruct (schedule_step_total msg_block W t HW) as (w & Hstep).
    exists (W ++ [w]). split.
    + rewrite seq_S, for_each_app, Hrun. cbn [bind for_each Nat.add].
      now rewrite Hstep.
    + rewrite length_app, HW. cbn. lia.
Qed.

(** The schedule loop returns for every block, whatever its length. *)
Lemma prepare_schedule_total (msg_block : bytes) :
  prepare_schedule msg_block = Ok (schedule_of msg_block)
  /\ length (schedule_of msg_block) = 64%nat.
Proof.
  unfold schedule_of.
  destruct (schedule_prefix_total msg_block 64) as (W & Hrun & HW).
  unfold prepare_schedule. rewrite Hrun. now split.
Qed.

(** After the loop the name [msg_schedule] holds the schedule of the last
    block; the earlier blocks have left nothing. *)
Lemma block_loop (msg_blocks : list bytes) (bound : option (list bytes)) :
  msg_blocks <> [] ->
  for_each block_body msg_blocks bound
  = Ok (Some (schedule_of (last msg_blocks []))).
Proof.
  revert bound. induction msg_blocks as [| b rest IH]; intros bound Hne;
    [congruence |].
  cbn [for_each]. unfold block_body at 1.
  rewrite (proj1 (prepare_schedule_total b)). cbn [bind].
  destruct rest as [| b' rest']; [reflexivity |].
  rewrite IH by discriminate. reflexivity.
Qed.

Lemma sha256_last_block (fpow : Z -> Z -> Z) (m : bytes) :
  sha256 fpow m
  = (p <- padding m ;; digest_from_seed fpow (last (parsing p) [])).
Proof.
  unfold sha256. destruct (padding m) as [p | e] eqn:Hp; cbn [bind];
    [| reflexivity].
  rewrite block_loop
    by (apply parsing_nonempty; now apply padding_nonempty with m).
  cbn [bind]. unfold digest_from_seed. cbn zeta. reflexivity.
Qed.

(** ** The rounds and the final state never raise *)

Lemma round_step_total (key : list Z) (W : list bytes) (v : working) (t : nat) :
  (t < length key)%nat -> (t < length W)%nat ->
  exists v', round_step key (Some W) v t = Ok v'.
Proof.
  intros Hk HW. destruct v as [a b c d e f g h]. cbn [round_step].
  rewrite (index_nth key t 0 Hk). cbn [bind read_name].
  rewrite (index_nth W t [] HW). cbn [bind].
  eexists. reflexivity.
Qed.

Lemma rounds_total (key : list Z) (W : list bytes) (from n : nat) (v : working) :
  (from + n <= length key)%nat -> (from + n <= length W)%nat ->
  exists v', for_each (round_step key (Some W)) (seq from n) v = Ok v'.
Proof.
  revert from v. induction n as [| n IH]; intros from v Hk HW.
  - exists v. reflexivity.
  - cbn [seq for_each].
    destruct (round_step_total key W v from) as (v1 & ->); [lia | lia |].
    cbn [bind]. apply IH; lia.
Qed.

Lemma unpack8_total (hash_value : list Z) :
  length hash_value = 8%nat ->
  unpack8 hash_value = Ok (FIPS.working_of hash_value).
Proof.
  intros H.
  do 8 (destruct hash_value as [| ? hash_value]; [discriminate H |]).
  destruct hash_value; [reflexivity | discriminate H].
Qed.

Lemma accumulate_words (l : list (Z * Z)) :
  Forall FIPS.word (map (fun '(i, j) => (i + j) mod 2 ^ 32) l).
Proof.
  induction l as [| [i j] l IH]; cbn [map]; constructor;
    [apply mod32_word | exact IH].
Qed.

Lemma map_result_words (H : list Z) :
  Forall FIPS.word H ->
  map_result integer_to_bytes H = Ok (map (big_endian 4) H).
Proof.
  induction 1 as [| x H Hx _ IH]; cbn [map_result map]; [reflexivity |].
  rewrite (integer_to_bytes_ok x Hx), IH. reflexivity.
Qed.

Lemma serialize_length (H : list Z) :
  length (FIPS.serialize H) = (4 * length H)%nat.
Proof.
  unfold FIPS.serialize. induction H as [| x H IH]; [reflexivity |].
  cbn [map concat length]. rewrite length_app, big_endian_length, IH. lia.
Qed.

Lemma digest_from_seed_total (fpow : Z -> Z -> Z) (msg_block : bytes) :
  exists H, digest_from_seed fpow msg_block = Ok (FIPS.serialize H)
            /\ length H = 8%nat /\ Forall FIPS.word H.
Proof.
  unfold digest_from_seed. cbn zeta.
  rewrite (unpack8_total _ (gen_initial_hash_length fpow)). cbn [bind].
  destruct (rounds_total (gen_keys fpow) (schedule_of msg_block) 0 64
              (FIPS.working_of (gen_initial_hash fpow))) as (v & Hv).
  { rewrite gen_keys_length. apply le_n. }
  { rewrite (proj2 (prepare_schedule_total msg_block)). apply le_n. }
  rewrite Hv.
  cbn [bind]. rewrite map_result_words by apply accumulate_words.
  cbn [bind].
  exists (map (fun '(i, j) => (i + j) mod 2 ^ 32)
               (combine (gen_initial_hash fpow) (variables_of v))).
  split; [unfold FIPS.serialize; reflexivity |]. split.
  - rewrite length_map, length_combine, gen_initial_hash_length. reflexivity.
  - apply accumulate_words.
Qed.

(** C9. For every input whose bit length fits the 64-bit length field,
    sha256 returns without raising: the final state H has 8 words, each in
    [0, 2^32), so that to_bytes(4, 'big') succeeds on each of them, and the
    digest, their concatenation, is exactly 32 bytes long.  The tables may
    hold any values: the result does not depend on the accuracy of the
    roots. *)
Theorem C9_returns_32_bytes (fpow : Z -> Z -> Z) (m : bytes) :
  Z.of_nat (length m) * 8 < 2 ^ 64 ->
  exists (H : list Z) (digest : bytes),
    sha256 fpow m = Ok digest
    /\ length digest = 32%nat
    /\ length H = 8%nat
    /\ Forall (fun x => 0 <= x < 2 ^ 32) H
    /\ map_result integer_to_bytes H = Ok (map (big_endian 4) H)
    /\ digest = concat (map (big_endian 4) H).
Proof.
  intros Hl. rewrite sha256_last_block, (padding_FIPS m Hl). cbn [bind].
  destruct (digest_from_seed_total fpow (last (parsing (FIPS.pad m)) []))
    as (H & -> & H8 & Hw).
  exists H, (FIPS.serialize H). split; [reflexivity |].
  split; [now rewrite serialize_length, H8 |].
  split; [exact H8 |]. split; [exact Hw |].
  split; [now apply map_result_words | reflexivity].
Qed.

(** ** Only the last block reaches the digest *)

Lemma last_block_64 (m : bytes) :
  length m = 64%nat ->
  padding m = Ok (m ++ [x80] ++ repeat x00 55 ++ big_endian 8 512)
  /\ last (parsing (m ++ [x80] ++ repeat x00 55 ++ big_endian 8 512)) []
     = [x80] ++ repeat x00 55 ++ big_endian 8 512.
Proof.
  intros Hm. split.
  - rewrite padding_shape by (rewrite Hm; cbn; lia). rewrite Hm. reflexivity.
  - rewrite parsing_cons by exact Hm. vm_compute. reflexivity.
Qed.

(** ** The rotation and one round *)

(** C6. On working variables that are 32-bit words, one pass of the
    code's round loop returns exactly the state of the specified round
    (T1, T2 reduced modulo 2^32, then the rotation of the eight variables),
    for every round t of 0..63, every table of 64 constants and every
    schedule of 64 entries; the new state consists of 32-bit words again. *)
Theorem C6_round_refines_spec (key : list Z) (W : list bytes)
  (v : working) (t : nat) :
  (t < 64)%nat -> length key = 64%nat -> length W = 64%nat -> words v ->
  round_step key (Some W) v t
  = Ok (FIPS.round v (nth t key 0) (word_at W t))
  /\ words (FIPS.round v (nth t key 0) (word_at W t)).
Proof.
  intros Ht Hk HW Hv. split.
  - apply round_step_FIPS; [rewrite Hk | rewrite HW |]; assumption.
  - now apply round_words.
Qed.

(** C7, as the code has it. For every 32-bit word x and every n with
    1 <= n <= 31, the low 32 bits of rotr(x, n) are x rotated right by n
    bits: bit i of the result is bit (i + n) mod 32 of x for i = 0..31, and
    rotr(x, n) mod 2^32 is the 32-bit rotation.  The result itself is not
    masked: it is only bounded by 2^(64-n). *)
Theorem C7_rotr_low_32_bits (x n : Z) :
  0 <= x < 2 ^ 32 -> 1 <= n <= 31 ->
  (forall i, 0 <= i < 32 ->
     Z.testbit (rotr x n 32) i = Z.testbit x ((i + n) mod 32))
  /\ rotr x n 32 mod 2 ^ 32 = FIPS.ROTR n x
  /\ 0 <= FIPS.ROTR n x < 2 ^ 32
  /\ 0 <= rotr x n 32 < 2 ^ (64 - n).
Proof.
  intros Hx Hn. split; [| split; [| split]].
  - intros i Hi. apply rotr_low_bits; (exact Hx || lia).
  - apply rotr_mod32; (exact Hx || lia).
  - apply ROTR_word; (exact Hx || lia).
  - apply rotr_bounds; (exact Hx || lia).
Qed.

(** C7 as stated fails: rotr(3, 1) = 0x180000001 is not below 2^32. *)
Lemma C7_rotr_not_32_bit :
  (0 <= 3 < 2 ^ 32) /\ (1 <= 1 <= 31)
  /\ rotr 3 1 32 = 0x180000001 /\ ~ (rotr 3 1 32 < 2 ^ 32).
Proof. vm_compute. intuition congruence. Qed.

(** ** Known answers *)

Lemma sha256_tables (fpow : Z -> Z -> Z) (m : bytes) :
  pow_accurate pow_tolerance fpow -> sha256 fpow m = sha256 exact_pow m.
Proof.
  intros Hacc. unfold sha256.
  rewrite (gen_keys_FIPS fpow Hacc), (gen_initial_hash_FIPS fpow Hacc).
  rewrite (gen_keys_FIPS exact_pow exact_pow_accurate),
    (gen_initial_hash_FIPS exact_pow exact_pow_accurate).
  reflexivity.
Qed.

(** C2. With the tables of the standard (that is, with roots accurate to
    2^-42), sha256 of the empty input returns the 32 bytes
    e3b0c442...7852b855 and sha256 of the three bytes abc returns the 32
    bytes ba7816bf...f20015ad. *)
Theorem C2_known_answers (fpow : Z -> Z -> Z) :
  pow_accurate pow_tolerance fpow ->
  exists d_empty d_abc,
    sha256 fpow [] = Ok d_empty
    /\ length d_empty = 32%nat
    /\ hex d_empty
       = "e3b0c44298fc1c149afbf4c8996fb92427ae41e4649b934ca495991b7852b855"%string
    /\ sha256 fpow [x61; x62; x63] = Ok d_abc
    /\ length d_abc = 32%nat
    /\ hex d_abc
       = "ba7816bf8f01cfea414140de5dae2223b00361a396177a9cb410ff61f20015ad"%string.
Proof.
  intros Hacc.
  rewrite (sha256_tables fpow [] Hacc),
    (sha256_tables fpow [x61; x62; x63] Hacc).
  eexists. eexists.
  split; [vm_compute; reflexivity |].
  split; [vm_compute; reflexivity |].
  split; [vm_compute; reflexivity |].
  split; [vm_compute; reflexivity |].
  split; vm_compute; reflexivity.
Qed.

(** ** The code against the standard *)

Lemma nth_map_word_at (W : list bytes) (k j : nat) :
  (j < k)%nat -> nth j (map (word_at W) (seq 0 k)) 0 = word_at W j.
Proof.
  intros Hj.
  rewrite (nth_indep _ 0 (word_at W 0)) by (rewrite length_map, length_seq; lia).
  rewrite map_nth, seq_nth by lia. reflexivity.
Qed.

Lemma add32_sum (a b c d : Z) :
  FIPS.add32 (FIPS.add32 (FIPS.add32 a b) c) d = (a + b + c + d) mod 2 ^ 32.
Proof.
  unfold FIPS.add32.
  rewrite Zplus_mod_idemp_l, <- (Z.add_assoc _ c d), Zplus_mod_idemp_l.
  now rewrite Z.add_assoc.
Qed.

Lemma expand_schedule (msg_block : bytes) (W : list bytes) (n : nat) :
  schedule_ok msg_block W -> (16 + n <= length W)%nat ->
  fold_left FIPS.expand (seq 16 n) (FIPS.block_words msg_block)
  = map (word_at W) (seq 0 (16 + n)).
Proof.
  intros Hok. induction n as [| n IH]; intros Hn.
  - cbn [seq fold_left]. rewrite Nat.add_0_r. symmetry.
    apply block_words_schedule; [lia | exact Hok].
  - rewrite (seq_S n 16), fold_left_app, IH by lia. cbn [fold_left].
    replace (16 + S n)%nat with (S (16 + n)) by lia.
    rewrite (seq_S (16 + n) 0), map_app. cbn [map Nat.add].
    unfold FIPS.expand. f_equal. f_equal.
    rewrite !nth_map_word_at by lia.
    rewrite add32_sum. destruct Hok as (_ & _ & Hhi).
    symmetry. apply Hhi; lia.
Qed.

Lemma schedule_FIPS (msg_block : bytes) :
  length msg_block = 64%nat ->
  map (word_at (schedule_of msg_block)) (seq 0 64) = FIPS.schedule msg_block.
Proof.
  intros Hb.
  destruct (prepare_schedule_ok msg_block Hb) as (W & Hrun & HW & Hok).
  unfold schedule_of. rewrite Hrun. unfold FIPS.schedule.
  symmetry. apply (expand_schedule msg_block W 48 Hok). lia.
Qed.

Lemma rounds_FIPS (key : list Z) (W : list bytes) (from n : nat) (v : working) :
  (from + n <= length key)%nat -> (from + n <= length W)%nat -> words v ->
  for_each (round_step key (Some W)) (seq from n) v
  = Ok (fold_left (fun v t => FIPS.round v (nth t key 0) (word_at W t))
                  (seq from n) v).
Proof.
  revert from v. induction n as [| n IH]; intros from v Hk HW Hv.
  - reflexivity.
  - cbn [seq for_each fold_left].
    rewrite round_step_FIPS by (assumption || lia). cbn [bind].
    apply IH; [lia | lia | now apply round_words].
Qed.

Lemma fold_rounds_ext (key : list Z) (W : list bytes) (Wz : list Z)
  (l : list nat) (v : working) :
  (forall t, In t l -> word_at W t = nth t Wz 0) ->
  fold_left (fun v t => FIPS.round v (nth t key 0) (word_at W t)) l v
  = fold_left (fun v t => FIPS.round v (nth t key 0) (nth t Wz 0)) l v.
Proof.
  revert v. induction l as [| t l IH]; intros v Hext; [reflexivity |].
  cbn [fold_left]. rewrite Hext by now left.
  apply IH. intros t' Ht'. apply Hext. now right.
Qed.

Lemma H0_words : words (FIPS.working_of FIPS.H0).
Proof. unfold words, FIPS.word. cbn. lia. Qed.

Lemma digest_from_seed_FIPS (fpow : Z -> Z -> Z) (msg_block : bytes) :
  pow_accurate pow_tolerance fpow -> length msg_block = 64%nat ->
  digest_from_seed fpow msg_block
  = Ok (FIPS.serialize (FIPS.process FIPS.H0 msg_block)).
Proof.
  intros Hacc Hb. unfold digest_from_seed. cbn zeta.
  rewrite (gen_keys_FIPS fpow Hacc), (gen_initial_hash_FIPS fpow Hacc).
  rewrite unpack8_total by reflexivity. cbn [bind].
  pose proof (prepare_schedule_total msg_block) as (_ & HW).
  rewrite rounds_FIPS by (rewrite ?HW; apply le_n || apply H0_words).
  cbn [bind].
  rewrite (fold_rounds_ext FIPS.K (schedule_of msg_block)
             (FIPS.schedule msg_block)).
  2:{ intros t Ht. apply in_seq in Ht.
      rewrite <- (schedule_FIPS msg_block Hb).
      symmetry. apply nth_map_word_at. lia. }
  rewrite map_result_words by apply accumulate_words. cbn [bind].
  unfold FIPS.serialize, FIPS.process, FIPS.rounds, FIPS.add32. reflexivity.
Qed.

Lemma pad_one_block (m : bytes) :
  (length m < 56)%nat -> length (FIPS.pad m) = 64%nat.
Proof.
  intros Hm. rewrite pad_length. unfold FIPS.zero_bytes.
  rewrite Z.mod_small by lia. lia.
Qed.

(** A message shorter than 56 bytes pads to one block, and on one block
    the code computes the digest of the standard. *)
Lemma sha256_one_block (fpow : Z -> Z -> Z) (m : bytes) :
  pow_accurate pow_tolerance fpow -> (length m < 56)%nat ->
  sha256 fpow m = Ok (FIPS.sha256 m).
Proof.
  intros Hacc Hm. pose proof (pad_one_block m Hm) as H64.
  rewrite sha256_last_block, padding_FIPS by (cbn; lia). cbn [bind].
  rewrite <- (app_nil_r (FIPS.pad m)) at 1.
  rewrite parsing_cons by exact H64.
  change (parsing []) with (@nil bytes). cbn [last].
  rewrite digest_from_seed_FIPS by assumption.
  unfold FIPS.sha256, FIPS.parse. rewrite H64.
  change (64 / 64)%nat with 1%nat. cbn [FIPS.blocks fold_left].
  rewrite firstn_all2 by lia. reflexivity.
Qed.

(** ** Messages of more than one block *)

(** C1. With the tables of the standard, the code computes the digest of
    FIPS 180-4 for every message shorter than 56 bytes (one block after
    padding), and fails to on the 56-byte message of the standard's
    examples: the code returns e6adb3eb...4a3de2e6 where SHA-256 is
    248d6a61...19db06c1. *)
Theorem C1_sha256_against_FIPS (fpow : Z -> Z -> Z) :
  pow_accurate pow_tolerance fpow ->
  (forall m, (length m < 56)%nat -> sha256 fpow m = Ok (FIPS.sha256 m))
  /\ length two_block_msg = 56%nat
  /\ hexdigest fpow two_block_msg
     = Ok "e6adb3eb2ca8536c0ac33f3218c66976541f8f098ade15634282fc174a3de2e6"%string
  /\ hex (FIPS.sha256 two_block_msg)
     = "248d6a61d20638b8e5c026930c3e6039a33ce45964ff2167f6ecedd419db06c1"%string
  /\ sha256 fpow two_block_msg <> Ok (FIPS.sha256 two_block_msg).
Proof.
  intros Hacc. split; [intros m Hm; now apply sha256_one_block |].
  split; [reflexivity |]. unfold hexdigest.
  rewrite (sha256_tables fpow two_block_msg Hacc).
  split; [vm_compute; reflexivity |]. split; [vm_compute; reflexivity |].
  vm_compute. intros H. discriminate H.
Qed.

(** C3. The code does not carry the state across blocks.  A message of 64
    bytes pads to two blocks; the digest the code returns for it is what
    lines 112-133 compute from the second block alone, starting from the
    initial hash value, and so 64 bytes 'a' and 64 bytes 'b' get the same
    digest, 2661d972...d6dbd831, where the standard gives ffe054fe...154668eb
    and a0fab137...1482b9d4. *)
Theorem C3_state_not_carried (fpow : Z -> Z -> Z) :
  pow_accurate pow_tolerance fpow ->
  (forall m, length m = 64%nat ->
     exists p tail,
       padding m = Ok p /\ parsing p = [m; tail]
       /\ sha256 fpow m = digest_from_seed fpow tail)
  /\ sha256 fpow block_of_a = sha256 fpow block_of_b
  /\ hexdigest fpow block_of_a
     = Ok "2661d9726bb783515f179d74405000b8839efb149e4d854f2fca2bc7d6dbd831"%string
  /\ hex (FIPS.sha256 block_of_a)
     = "ffe054fe7ae0cb6dc65c3af9b61d5209f439851db43d0ba5997337df154668eb"%string
  /\ hex (FIPS.sha256 block_of_b)
     = "a0fab1377f49a759b57f63318262ebe89fabfc990e8e93ceac2984561482b9d4"%string.
Proof.
  intros Hacc. split; [| split; [| split; [| split]]].
  - intros m Hm. destruct (last_block_64 m Hm) as (Hp & Hlast).
    exists (m ++ [x80] ++ repeat x00 55 ++ big_endian 8 512).
    exists ([x80] ++ repeat x00 55 ++ big_endian 8 512).
    split; [exact Hp |]. split.
    + rewrite parsing_cons by exact Hm. apply f_equal.
      vm_compute. reflexivity.
    + rewrite (sha256_last_block fpow m), Hp. cbn [bind].
      rewrite Hlast. reflexivity.
  - destruct (last_block_64 block_of_a) as (Hpa & Hla); [reflexivity |].
    destruct (last_block_64 block_of_b) as (Hpb & Hlb); [reflexivity |].
    rewrite (sha256_last_block fpow block_of_a), Hpa.
    rewrite (sha256_last_block fpow block_of_b), Hpb.
    cbn [bind]. rewrite Hla, Hlb. reflexivity.
  - unfold hexdigest. rewrite (sha256_tables fpow block_of_a Hacc).
    vm_compute. reflexivity.
  - vm_compute. reflexivity.
  - vm_compute. reflexivity.
Qed.

(** ** Only the last block, in the terms of the standard *)

Lemma padding_Ok (m p : bytes) : padding m = Ok p -> p = FIPS.pad m.
Proof.
  intros Hp. destruct (Z.lt_ge_cases (Z.of_nat (length m) * 8) (2 ^ 64)) as [Hl | Hl].
  - rewrite (padding_FIPS m Hl) in Hp. symmetry. now apply Ok_inj.
  - rewrite (padding_overflow m Hl) in Hp. discriminate Hp.
Qed.

Lemma last_parsing_length (n : nat) (p : bytes) :
  length p = (64 * S n)%nat -> length (last (parsing p) []) = 64%nat.
Proof.
  revert p. induction n as [| n IH]; intros p Hp.
  - rewrite <- (app_nil_r p), parsing_cons by lia.
    change (parsing []) with (@nil bytes). cbn [last]. lia.
  - rewrite <- (firstn_skipn 64 p).
    rewrite parsing_cons by (rewrite length_firstn; lia).
    assert (Hrest : length (skipn 64 p) = (64 * S n)%nat)
      by (rewrite length_skipn; lia).
    assert (Hne : parsing (skipn 64 p) <> []).
    { apply parsing_nonempty. intros E. rewrite E in Hrest. cbn in Hrest. lia. }
    destruct (parsing (skipn 64 p)) as [| b l] eqn:E; [congruence |].
    change (last (firstn 64 p :: b :: l) []) with (last (b :: l) []).
    rewrite <- E. now apply IH.
Qed.

(** C10. The digest is what lines 112-133 compute from the last block of
    the padded message alone, starting from the initial hash value; two
    messages whose padded forms end in the same block have the same
    digest; all 64-byte messages share one digest; and with the tables of
    the standard the digest is the serialization of the words
    (H0[i] + compress(H0, schedule(last block))[i]) mod 2^32. *)
Theorem C10_digest_of_last_block_only (fpow : Z -> Z -> Z) :
  (forall m,
      sha256 fpow m
      = (p <- padding m ;; digest_from_seed fpow (last (parsing p) [])))
  /\ (forall m1 m2 p1 p2,
        padding m1 = Ok p1 -> padding m2 = Ok p2 ->
        last (parsing p1) [] = last (parsing p2) [] ->
        sha256 fpow m1 = sha256 fpow m2)
  /\ (forall m1 m2,
        length m1 = 64%nat -> length m2 = 64%nat ->
        sha256 fpow m1 = sha256 fpow m2)
  /\ (pow_accurate pow_tolerance fpow ->
      forall m p, padding m = Ok p ->
        sha256 fpow m
        = Ok (FIPS.serialize (FIPS.process FIPS.H0 (last (parsing p) [])))).
Proof.
  split; [apply sha256_last_block |]. split; [| split].
  - intros m1 m2 p1 p2 Hp1 Hp2 Hlast.
    rewrite (sha256_last_block fpow m1), (sha256_last_block fpow m2), Hp1, Hp2.
    cbn [bind]. rewrite Hlast. reflexivity.
  - intros m1 m2 H1 H2.
    destruct (last_block_64 m1 H1) as (Hp1 & Hl1).
    destruct (last_block_64 m2 H2) as (Hp2 & Hl2).
    rewrite (sha256_last_block fpow m1), (sha256_last_block fpow m2), Hp1, Hp2.
    cbn [bind]. rewrite Hl1, Hl2. reflexivity.
  - intros Hacc m p Hp.
    rewrite (sha256_last_block fpow m), Hp. cbn [bind].
    apply digest_from_seed_FIPS; [exact Hacc |].
    rewrite (padding_Ok m p Hp).
    destruct (pad_length_blocks m) as (n & Hn).
    now apply last_parsing_length with n.
Qed.

(** ** Further properties of the stages *)

Lemma split_block (n : nat) (p : bytes) :
  length p = (64 * S n)%nat ->
  exists b r, p = b ++ r /\ length b = 64%nat /\ length r = (64 * n)%nat.
Proof.
  intros Hp. exists (firstn 64 p), (skipn 64 p).
  rewrite firstn_skipn, length_firstn, length_skipn. repeat split; lia.
Qed.

Lemma parsing_blocks (n : nat) (p : bytes) :
  length p = (64 * n)%nat ->
  concat (parsing p) = p
  /\ Forall (fun b => length b = 64%nat) (parsing p)
  /\ length (parsing p) = n.
Proof.
  revert p. induction n as [| n IH]; intros p Hp.
  - destruct p; [| discriminate Hp]. repeat split. constructor.
  - destruct (split_block n p Hp) as (b & r & -> & Hb & Hr).
    rewrite parsing_cons by exact Hb.
    destruct (IH r Hr) as (Hcat & Hall & Hlen).
    cbn [concat length]. rewrite Hcat, Hlen.
    repeat split. constructor; assumption.
Qed.

(** X1. sha256 raises exactly on the inputs whose bit length does not fit
    the 64-bit length field, and what it raises there is the OverflowError
    of l.to_bytes(8, 'big') at line 73. *)
Theorem X1_raises_iff_length_overflows (fpow : Z -> Z -> Z) (m : bytes) :
  (sha256 fpow m = Raise OverflowError
   <-> 2 ^ 64 <= Z.of_nat (length m) * 8)
  /\ (forall e, sha256 fpow m = Raise e -> e = OverflowError).
Proof.
  rewrite (sha256_last_block fpow m).
  destruct (Z.lt_ge_cases (Z.of_nat (length m) * 8) (2 ^ 64)) as [Hl | Hl].
  - rewrite (padding_FIPS m Hl). cbn [bind].
    destruct (digest_from_seed_total fpow (last (parsing (FIPS.pad m)) []))
      as (H & -> & _).
    split; [split |]; [discriminate | lia | discriminate].
  - rewrite (padding_overflow m Hl). cbn [bind].
    split; [split; [intros _; exact Hl | reflexivity] |].
    intros e He. symmetry. now inversion He.
Qed.

(** X2. The block parser cuts a message whose length is a multiple of 64
    into consecutive blocks of exactly 64 bytes, in order, that cover the
    whole message; on a padded message there is at least one block, and
    the blocks are those of the standard. *)
Theorem X2_parsing_blocks (n : nat) (p : bytes) :
  length p = (64 * n)%nat ->
  concat (parsing p) = p
  /\ Forall (fun b => length b = 64%nat) (parsing p)
  /\ length (parsing p) = n
  /\ parsing p = FIPS.parse p.
Proof.
  intros Hp. destruct (parsing_blocks n p Hp) as (Hcat & Hall & Hlen).
  repeat (split; [assumption |]).
  unfold FIPS.parse. rewrite Hp, Nat.mul_comm, Nat.div_mul by lia.
  clear Hcat Hall Hlen. revert p Hp. induction n as [| n IH]; intros p Hp.
  - destruct p; [reflexivity | discriminate Hp].
  - destruct (split_block n p Hp) as (b & r & -> & Hb & Hr).
    rewrite parsing_cons by exact Hb. cbn [FIPS.blocks].
    rewrite firstn_app, skipn_app, Hb, Nat.sub_diag, firstn_O, app_nil_r.
    rewrite firstn_all2, skipn_all2 by lia. cbn [skipn app].
    f_equal. now apply IH.
Qed.

(** X3. With the tables of the standard, sha256 returns the FIPS 180-4
    digest of every message shorter than 56 bytes, the messages that pad
    to a single block. *)
Theorem X3_one_block_messages (fpow : Z -> Z -> Z) (m : bytes) :
  pow_accurate pow_tolerance fpow -> (length m < 56)%nat ->
  length (FIPS.pad m) = 64%nat
  /\ sha256 fpow m = Ok (FIPS.sha256 m).
Proof.
  intros Hacc Hm. split; [now apply pad_one_block | now apply sha256_one_block].
Qed.

(** X4. The padded message of an input of len bytes has (len + 8) / 64 + 1
    blocks: a 55-byte input pads within one block, inputs of 56 and 57
    bytes need a second block, and an input of 64 bytes has two blocks. *)
Theorem X4_padded_length (m : bytes) :
  Z.of_nat (length m) * 8 < 2 ^ 64 ->
  exists p,
    padding m = Ok p
    /\ length p = (64 * ((length m + 8) / 64 + 1))%nat
    /\ (length m = 55%nat -> length p = 64%nat)
    /\ (length m = 56%nat -> length p = 128%nat)
    /\ (length m = 57%nat -> length p = 128%nat)
    /\ (length m = 64%nat -> length p = 128%nat).
Proof.
  intros Hl. exists (FIPS.pad m). split; [now apply padding_FIPS |].
  assert (Hlen : length (FIPS.pad m) = (64 * ((length m + 8) / 64 + 1))%nat).
  { rewrite pad_length. unfold FIPS.zero_bytes.
    pose proof (Z.mod_pos_bound (55 - Z.of_nat (length m)) 64).
    apply Nat2Z.inj.
    rewrite Nat2Z.inj_mul, !Nat2Z.inj_add, Nat2Z.inj_div, Nat2Z.inj_add.
    rewrite Z2Nat.id by lia.
    change (Z.of_nat 64) with 64. change (Z.of_nat 8) with 8.
    change (Z.of_nat 1) with 1.
    Z.div_mod_to_equations. lia. }
  split; [exact Hlen |].
  repeat split; intros E; rewrite Hlen, E; reflexivity.
Qed.

(** X5. On 32-bit words the remaining primitives agree with the standard:
    shr, ch and maj return its 32-bit values, and the four sigma functions,
    built on the unmasked rotr, agree with it modulo 2^32. *)
Theorem X5_primitives (x y z : Z) :
  0 <= x < 2 ^ 32 -> 0 <= y < 2 ^ 32 -> 0 <= z < 2 ^ 32 ->
  ch x y z = FIPS.Ch x y z
  /\ 0 <= ch x y z < 2 ^ 32
  /\ maj x y z = FIPS.Maj x y z
  /\ 0 <= maj x y z < 2 ^ 32
  /\ summation0 x mod 2 ^ 32 = FIPS.Sum0 x
  /\ summation1 x mod 2 ^ 32 = FIPS.Sum1 x
  /\ sigma0 x mod 2 ^ 32 = FIPS.sig0 x
  /\ sigma1 x mod 2 ^ 32 = FIPS.sig1 x
  /\ (forall n, 0 <= n -> 0 <= shr x n < 2 ^ 32).
Proof.
  intros Hx Hy Hz.
  split; [now apply ch_FIPS |].
  split; [unfold ch; apply lxor_word; now apply land_word_r |].
  split; [reflexivity |].
  split; [unfold maj; repeat apply lxor_word; now apply land_word_r |].
  split; [now apply summation0_mod32 |].
  split; [now apply summation1_mod32 |].
  split; [now apply sigma0_mod32 |].
  split; [now apply sigma1_mod32 |].
  intros n Hn. now apply shr_word.
Qed.

(** ** Integers and their four bytes *)

Lemma big_endian_shift (n : nat) (x c : Z) :
  big_endian n (x + c * 256 ^ Z.of_nat n) = big_endian n x.
Proof.
  revert c. induction n as [| n IH]; intros c; [reflexivity |].
  cbn [big_endian]. f_equal.
  - f_equal. rewrite Nat2Z.inj_succ, Z.pow_succ_r by lia.
    assert (0 < 256 ^ Z.of_nat n) by (apply Z.pow_pos_nonneg; lia).
    replace (c * (256 * 256 ^ Z.of_nat n)) with (c * 256 * 256 ^ Z.of_nat n)
      by ring.
    rewrite Z.div_add by lia. apply Z.mod_add. lia.
  - rewrite Nat2Z.inj_succ, Z.pow_succ_r by lia.
    replace (c * (256 * 256 ^ Z.of_nat n)) with (c * 256 * 256 ^ Z.of_nat n)
      by ring.
    apply IH.
Qed.

Lemma byte_of_Z_of_byte (b : byte) : byte_of_Z (Z_of_byte b) = b.
Proof.
  unfold byte_of_Z, Z_of_byte. rewrite N2Z.id, Byte.of_to_N. reflexivity.
Qed.

Lemma big_endian_from_bytes (w : bytes) :
  big_endian (length w) (from_bytes_big w) = w.
Proof.
  induction w as [| b w IH]; [reflexivity |].
  rewrite from_bytes_cons. cbn [length big_endian].
  pose proof (from_bytes_range w) as Hr. pose proof (Z_of_byte_range b) as Hb.
  f_equal.
  - rewrite Z.add_comm, Z.div_add by lia.
    rewrite Z.div_small, Z.add_0_l, Z.mod_small by lia.
    apply byte_of_Z_of_byte.
  - rewrite Z.add_comm, big_endian_shift. exact IH.
Qed.

(** X6. integer_to_bytes raises OverflowError exactly on the integers
    outside [0, 2^32); where it returns, the result has four bytes and
    bytes_to_integer reads the integer back; and integer_to_bytes gives
    back every four-byte string from the integer bytes_to_integer reads in
    it. *)
Theorem X6_integer_bytes_round_trip (x : Z) (w : bytes) :
  (integer_to_bytes x = Raise OverflowError <-> x < 0 \/ 2 ^ 32 <= x)
  /\ (forall b, integer_to_bytes x = Ok b ->
        length b = 4%nat /\ bytes_to_integer b = x)
  /\ (length w = 4%nat -> integer_to_bytes (bytes_to_integer w) = Ok w).
Proof.
  split; [| split].
  - unfold integer_to_bytes, to_bytes_big. change (256 ^ Z.of_nat 4) with (2 ^ 32).
    destruct (Z.ltb_spec x 0); [intuition lia |].
    destruct (Z.leb_spec (2 ^ 32) x); [intuition lia |].
    split; [discriminate | lia].
  - intros b Hb. unfold integer_to_bytes, to_bytes_big in Hb.
    change (256 ^ Z.of_nat 4) with (2 ^ 32) in Hb.
    destruct (Z.ltb_spec x 0); [discriminate Hb |].
    destruct (Z.leb_spec (2 ^ 32) x); [discriminate Hb |].
    apply Ok_inj in Hb. subst b. split; [apply big_endian_length |].
    apply bytes_to_integer_big_endian. unfold FIPS.word. lia.
  - intros Hw. rewrite integer_to_bytes_ok by now apply bytes_to_integer_word.
    f_equal. rewrite <- Hw. apply big_endian_from_bytes.
Qed.

(** ** The prime generator *)

Lemma in_range (lo hi d : Z) : In d (range lo hi) <-> lo <= d < hi.
Proof.
  unfold range. rewrite in_map_iff. split.
  - intros (k & <- & Hk). apply in_seq in Hk. lia.
  - intros Hd. exists (Z.to_nat (d - lo)). split; [lia |].
    apply in_seq. lia.
Qed.

(** The test at line 52 is a primality test on the integers above 1. *)
Lemma trial_division_prime (n : Z) :
  1 < n -> trial_division n = true <-> Z.prime n.
Proof.
  intros Hn. unfold trial_division. rewrite forallb_forall. split.
  - intros Hall. split; [exact Hn |]. intros d Hd Hdiv.
    specialize (Hall d (proj2 (in_range 2 n d) ltac:(lia))).
    apply negb_true_iff, Z.eqb_neq in Hall.
    apply Hall. apply Z.mod_divide; [lia | exact Hdiv].
  - intros (_ & Hp) d Hd. apply in_range in Hd.
    apply negb_true_iff, Z.eqb_neq. intros Hmod.
    apply (Hp d); [lia |]. apply Z.mod_divide; [lia | exact Hmod].
Qed.

Lemma primes_from_sound (fuel : nat) (c : Z) (n : nat) (p : Z) :
  In p (primes_from fuel c n) -> c <= p /\ trial_division p = true.
Proof.
  revert c n. induction fuel as [| fuel IH]; intros c [| n] Hp;
    try contradiction.
  cbn [primes_from] in Hp. destruct (trial_division c) eqn:Hc.
  - destruct Hp as [<- | Hp]; [split; [lia | exact Hc] |].
    apply IH in Hp. split; [lia | apply Hp].
  - apply IH in Hp. split; [lia | apply Hp].
Qed.

Lemma primes_from_sorted (fuel : nat) (c : Z) (n : nat) :
  StronglySorted Z.lt (primes_from fuel c n).
Proof.
  revert c n. induction fuel as [| fuel IH]; intros c [| n];
    try constructor.
  cbn [primes_from]. destruct (trial_division c); [| apply IH].
  constructor; [apply IH |]. apply Forall_forall. intros p Hp.
  apply primes_from_sound in Hp. lia.
Qed.

Lemma primes_from_complete (fuel : nat) (c : Z) (n : nat) (p q : Z) :
  In p (primes_from fuel c n) -> c <= q <= p -> trial_division q = true ->
  In q (primes_from fuel c n).
Proof.
  revert c n. induction fuel as [| fuel IH]; intros c [| n] Hp Hq Hprime;
    try contradiction.
  cbn [primes_from] in *. destruct (trial_division c) eqn:Hc.
  - destruct (Z.eq_dec q c) as [-> | Hne]; [now left |]. right.
    destruct Hp as [<- | Hp]; [lia |]. apply IH; [exact Hp | lia | exact Hprime].
  - destruct (Z.eq_dec q c) as [-> | Hne]; [congruence |].
    apply IH; [exact Hp | lia | exact Hprime].
Qed.

Lemma primes_from_prefix (fuel : nat) (c : Z) (n n' : nat) :
  (n <= n')%nat ->
  primes_from fuel c n = firstn n (primes_from fuel c n').
Proof.
  revert c n n'. induction fuel as [| fuel IH]; intros c [| n] [| n'] Hn;
    try reflexivity; try lia.
  cbn [primes_from]. destruct (trial_division c).
  - cbn [firstn]. f_equal. apply IH. lia.
  - apply IH. lia.
Qed.

(** X7. The test of the generator accepts an integer above 1 exactly when
    it is prime (it also accepts 0 and 1, which the generator, counting
    from 2, never tries).  For n up to 64, generate_n_primes(n) yields
    exactly n numbers: primes, in strictly increasing order, with no prime
    skipped below the last one, that is the first n primes; a shorter
    request is served by the first entries of a longer one. *)
Theorem X7_first_primes (n : nat) :
  (n <= 64)%nat ->
  length (generate_n_primes n) = n
  /\ (forall p, In p (generate_n_primes n) -> Z.prime p)
  /\ StronglySorted Z.lt (generate_n_primes n)
  /\ (forall p q, In p (generate_n_primes n) -> Z.prime q -> q <= p ->
        In q (generate_n_primes n))
  /\ (forall n', (n <= n')%nat ->
        generate_n_primes n = firstn n (generate_n_primes n'))
  /\ (forall k, 1 < k -> trial_division k = true <-> Z.prime k)
  /\ trial_division 0 = true /\ trial_division 1 = true.
Proof.
  intros Hn. unfold generate_n_primes.
  split; [| split; [| split; [| split; [| split; [| split]]]]].
  - rewrite (primes_from_prefix search_fuel 2 n 64 Hn), length_firstn.
    replace (length (primes_from search_fuel 2 64)) with 64%nat
      by (vm_compute; reflexivity).
    lia.
  - intros p Hp. apply primes_from_sound in Hp.
    apply trial_division_prime; [lia | apply Hp].
  - apply primes_from_sorted.
  - intros p q Hp (Hq1 & Hq) Hle.
    apply primes_from_complete with p; [exact Hp | lia |].
    apply trial_division_prime; [lia | now split].
  - intros n' Hn'. now apply primes_from_prefix.
  - intros k Hk. now apply trial_division_prime.
  - split; reflexivity.
Qed.

(** ** The range of the generated constants *)



(** ** Padding can be undone *)

Lemma app_inj_length {A : Type} (a1 a2 b1 b2 : list A) :
  length a1 = length a2 -> a1 ++ b1 = a2 ++ b2 -> a1 = a2 /\ b1 = b2.
Proof.
  revert a2. induction a1 as [| x a1 IH]; intros [| y a2] Hlen Heq;
    try discriminate Hlen.
  - now split.
  - cbn [app] in Heq. injection Heq as -> Heq.
    destruct (IH a2) as (-> & ->); [now injection Hlen | exact Heq |].
    now split.
Qed.

Lemma padding_Ok_length (m p : bytes) :
  padding m = Ok p -> Z.of_nat (length m) * 8 < 2 ^ 64.
Proof.
  intros Hp. destruct (Z.lt_ge_cases (Z.of_nat (length m) * 8) (2 ^ 64))
    as [Hl | Hl]; [exact Hl |].
  rewrite (padding_overflow m Hl) in Hp. discriminate Hp.
Qed.

(** X9. Padding loses nothing: two inputs with the same padded message
    are equal, and the input is the prefix of its padded message whose
    length, in bits, the last 8 bytes hold. *)
Theorem X9_padding_injective (m1 m2 p : bytes) :
  padding m1 = Ok p -> padding m2 = Ok p ->
  m1 = m2
  /\ from_bytes_big (skipn (length p - 8) p) = Z.of_nat (length m1) * 8
  /\ firstn (length m1) p = m1.
Proof.
  intros H1 H2.
  pose proof (padding_Ok_length m1 p H1) as Hl1.
  pose proof (padding_Ok_length m2 p H2) as Hl2.
  apply padding_Ok in H1, H2.
  assert (Htail : forall m, Z.of_nat (length m) * 8 < 2 ^ 64 ->
            from_bytes_big (skipn (length (FIPS.pad m) - 8) (FIPS.pad m))
            = Z.of_nat (length m) * 8).
  { intros m Hm. rewrite pad_length. unfold FIPS.pad.
    rewrite !app_assoc, skipn_app.
    rewrite skipn_all2
      by (rewrite !length_app, repeat_length; cbn [length]; lia).
    rewrite !length_app, repeat_length. cbn [length app].
    replace (length m + 1 + FIPS.zero_bytes (length m) + 8
             - 8 - (length m + 1 + FIPS.zero_bytes (length m)))%nat
      with 0%nat by lia.
    cbn [skipn]. rewrite from_bytes_big_endian. apply Z.mod_small.
    change (256 ^ Z.of_nat 8) with (2 ^ 64). lia. }
  assert (Hlen : length m1 = length m2).
  { pose proof (Htail m1 Hl1) as T1. pose proof (Htail m2 Hl2) as T2.
    rewrite <- H1 in T1. rewrite <- H2 in T2. lia. }
  assert (Hpre : forall m, firstn (length m) (FIPS.pad m) = m).
  { intros m. unfold FIPS.pad. rewrite firstn_app, Nat.sub_diag, firstn_O.
    rewrite firstn_all, app_nil_r. reflexivity. }
  split; [| split].
  - rewrite <- (Hpre m1), <- (Hpre m2), <- H1, <- H2, Hlen. reflexivity.
  - rewrite H1. now apply Htail.
  - rewrite H1. apply Hpre.
Qed.

(** ** Which bytes of the message reach the digest *)

Lemma last_app_nonempty {A : Type} (l1 l2 : list A) (d : A) :
  l2 <> [] -> last (l1 ++ l2) d = last l2 d.
Proof.
  intros Hne. induction l1 as [| x l1 IH]; [reflexivity |].
  cbn [app]. destruct (l1 ++ l2) eqn:E.
  - apply app_eq_nil in E as [_ E]. congruence.
  - rewrite <- IH. reflexivity.
Qed.

Lemma parsing_app (k : nat) (a r : bytes) :
  length a = (64 * k)%nat -> parsing (a ++ r) = parsing a ++ parsing r.
Proof.
  revert a. induction k as [| k IH]; intros a Ha.
  - destruct a; [reflexivity | discriminate Ha].
  - destruct (split_block k a Ha) as (b & a' & -> & Hb & Ha').
    rewrite <- app_assoc, (parsing_cons b (a' ++ r) Hb), (parsing_cons b a' Hb).
    rewrite IH by exact Ha'. reflexivity.
Qed.

(** When the padded message splits into whole blocks followed by one last
    block, the digest is computed from that block. *)
Lemma sha256_split (fpow : Z -> Z -> Z) (m front block : bytes) (k : nat) :
  padding m = Ok (front ++ block) ->
  length front = (64 * k)%nat -> length block = 64%nat ->
  sha256 fpow m = digest_from_seed fpow block.
Proof.
  intros Hp Hf Hb. rewrite (sha256_last_block fpow m), Hp. cbn [bind].
  rewrite (parsing_app k front block Hf).
  rewrite <- (app_nil_r block) at 1. rewrite parsing_cons by exact Hb.
  change (parsing []) with (@nil bytes).
  rewrite last_app_nonempty by discriminate. reflexivity.
Qed.

(** X10. Whole leading blocks do not reach the digest: replacing the first
    64 k bytes of a message by any other 64 k bytes leaves sha256 unchanged,
    exception included. *)
Theorem X10_leading_blocks_ignored (fpow : Z -> Z -> Z) (k : nat)
  (a b t : bytes) :
  length a = (64 * k)%nat -> length b = (64 * k)%nat ->
  sha256 fpow (a ++ t) = sha256 fpow (b ++ t).
Proof.
  intros Ha Hb.
  rewrite (sha256_last_block fpow (a ++ t)), (sha256_last_block fpow (b ++ t)).
  assert (Hlen : length (a ++ t) = length (b ++ t))
    by (rewrite !length_app; lia).
  destruct (Z.lt_ge_cases (Z.of_nat (length (a ++ t)) * 8) (2 ^ 64))
    as [Hl | Hl].
  - rewrite (padding_shape (a ++ t) Hl).
    rewrite Hlen in Hl. rewrite (padding_shape (b ++ t) Hl).
    rewrite Hlen. cbn [bind]. rewrite <- !app_assoc.
    rewrite (parsing_app k a _ Ha), (parsing_app k b _ Hb).
    assert (Hne : parsing
                    (t ++ [x80] ++ repeat x00 (FIPS.zero_bytes (length (b ++ t)))
                       ++ big_endian 8 (Z.of_nat (length (b ++ t)) * 8)) <> []).
    { apply parsing_nonempty. intros E. apply app_eq_nil in E as [_ E].
      discriminate E. }
    rewrite !last_app_nonempty by exact Hne. reflexivity.
  - rewrite (padding_overflow (a ++ t) Hl).
    rewrite Hlen in Hl. rewrite (padding_overflow (b ++ t) Hl). reflexivity.
Qed.

(** X11. When the length of the message modulo 64 is 56 or more, its last
    padded block holds no byte of the message, only 56 zero bytes and the
    bit length: sha256 then returns the same digest for all messages of
    that length. *)
Theorem X11_digest_of_length_only (fpow : Z -> Z -> Z) (m1 m2 : bytes) :
  Z.of_nat (length m1) * 8 < 2 ^ 64 ->
  (56 <= length m1 mod 64)%nat -> length m2 = length m1 ->
  sha256 fpow m1
  = digest_from_seed fpow
      (repeat x00 56 ++ big_endian 8 (Z.of_nat (length m1) * 8))
  /\ sha256 fpow m1 = sha256 fpow m2.
Proof.
  intros Hl Hr Hlen.
  assert (Hone : forall m, length m = length m1 ->
            sha256 fpow m
            = digest_from_seed fpow
                (repeat x00 56 ++ big_endian 8 (Z.of_nat (length m1) * 8))).
  { intros m Hm.
    pose proof (Nat.mod_upper_bound (length m1) 64 ltac:(lia)) as Hub.
    pose proof (Nat.div_mod_eq (length m1) 64) as Hdm.
    assert (Hk : FIPS.zero_bytes (length m)
                 = (119 - length m1 mod 64)%nat).
    { unfold FIPS.zero_bytes. rewrite Hm.
      rewrite <- (Nat2Z.id (119 - length m1 mod 64)). f_equal.
      symmetry. apply Z.mod_unique with (- Z.of_nat (length m1 / 64) - 1); lia. }
    apply sha256_split
      with (front := m ++ [x80] ++ repeat x00 (63 - length m1 mod 64))
           (k := S (length m1 / 64)).
    - rewrite padding_shape by (rewrite Hm; exact Hl).
      rewrite Hk, Hm. f_equal. rewrite <- !app_assoc. do 2 f_equal.
      rewrite app_assoc, <- repeat_app. do 2 f_equal. lia.
    - rewrite !length_app, repeat_length, Hm. cbn [length]. lia.
    - rewrite length_app, repeat_length, big_endian_length. reflexivity. }
  split; [now apply Hone |].
  rewrite (Hone m1 eq_refl), (Hone m2 Hlen). reflexivity.
Qed.

(** ** The 64 rounds together *)

Lemma fold_round_words (key : list Z) (W : list bytes) (l : list nat)
  (v : working) :
  words v ->
  words (fold_left (fun v t => FIPS.round v (nth t key 0) (word_at W t)) l v).
Proof.
  revert v. induction l as [| t l IH]; intros v Hv; [exact Hv |].
  cbn [fold_left]. apply IH. now apply round_words.
Qed.

(** X12. From working variables that are 32-bit words, with a table of 64
    constants and a schedule of 64 entries, the loop of the 64 rounds
    returns without raising; its result is the 64 rounds of the standard
    applied in order with the constants and the schedule words, and
    consists of 32-bit words although the intermediate sums are not
    reduced. *)
Theorem X12_compression_loop (key : list Z) (W : list bytes) (v : working) :
  length key = 64%nat -> length W = 64%nat -> words v ->
  exists v',
    for_each (round_step key (Some W)) (seq 0 64) v = Ok v'
    /\ v' = fold_left (fun v t => FIPS.round v (nth t key 0) (word_at W t))
                      (seq 0 64) v
    /\ words v'
    /\ (key = FIPS.K ->
        v' = FIPS.rounds (map (word_at W) (seq 0 64)) v).
Proof.
  intros Hk HW Hv. eexists. split; [| split; [reflexivity | split]].
  - apply rounds_FIPS; [rewrite Hk | rewrite HW |]; (apply le_n || exact Hv).
  - now apply fold_round_words.
  - intros ->. unfold FIPS.rounds. apply fold_rounds_ext.
    intros t Ht. apply in_seq in Ht. symmetry. apply nth_map_word_at. lia.
Qed.

(** ** The exact value of the unmasked rotation *)

(** X13. On a 32-bit word x and 1 <= n <= 31, rotr(x, n) is the sum of
    x >> n and x * 2^(32-n); it is below 2^32 exactly when x < 2^n, that
    is when no bit of x is rotated out at the bottom. *)
Theorem X13_rotr_value (x n : Z) :
  0 <= x < 2 ^ 32 -> 1 <= n <= 31 ->
  rotr x n 32 = x / 2 ^ n + x * 2 ^ (32 - n)
  /\ (rotr x n 32 < 2 ^ 32 <-> x < 2 ^ n).
Proof.
  intros Hx Hn.
  assert (Hsum : rotr x n 32 = x / 2 ^ n + x * 2 ^ (32 - n)).
  { unfold rotr.
    assert (Hland : Z.land (Z.shiftr x n) (Z.shiftl x (32 - n)) = 0).
    { apply Z.bits_inj'. intros i Hi.
      rewrite Z.land_spec, Z.shiftr_spec, Z.bits_0 by lia.
      destruct (Z.lt_ge_cases i (32 - n)) as [Hlt | Hge].
      - rewrite Z.shiftl_spec_low by lia. apply andb_false_r.
      - rewrite (word_high_bit x (i + n)) by (exact Hx || lia).
        reflexivity. }
    rewrite <- Z.lxor_lor, <- Z.add_nocarry_lxor by exact Hland.
    rewrite Z.shiftr_div_pow2, Z.shiftl_mul_pow2 by lia. reflexivity. }
  split; [exact Hsum |]. rewrite Hsum.
  assert (Hpn : 0 < 2 ^ n) by (apply Z.pow_pos_nonneg; lia).
  assert (Hpm : 0 < 2 ^ (32 - n)) by (apply Z.pow_pos_nonneg; lia).
  assert (Hprod : 2 ^ n * 2 ^ (32 - n) = 2 ^ 32).
  { rewrite <- Z.pow_add_r by lia. f_equal. lia. }
  assert (Hq : 0 <= x / 2 ^ n) by (apply Z.div_pos; lia).
  split.
  - intros Hlt. nia.
  - intros Hlt. rewrite Z.div_small by lia. nia.
Qed.

(** ** Parsing a message of any length *)

Lemma parsing_short (msg : bytes) :
  (0 < length msg <= 64)%nat -> parsing msg = [msg].
Proof.
  intros Hlen. rewrite parsing_chunks.
  replace ((length msg + 63) / 64)%nat with 1%nat.
  - cbn [seq map]. rewrite Nat.mul_0_r. cbn [skipn].
    rewrite firstn_all2 by lia. reflexivity.
  - apply Nat.div_unique with (length msg - 1)%nat; lia.
Qed.

Lemma parsing_concat (n : nat) (msg : bytes) :
  (length msg <= n)%nat -> concat (parsing msg) = msg.
Proof.
  revert msg. induction n as [| n IH]; intros msg Hn.
  - destruct msg; [reflexivity | cbn in Hn; lia].
  - destruct (Nat.le_gt_cases (length msg) 64) as [Hshort | Hlong].
    + destruct msg as [| b msg]; [reflexivity |].
      rewrite parsing_short by (cbn [length] in *; lia).
      cbn [concat]. apply app_nil_r.
    + rewrite <- (firstn_skipn 64 msg) at 1.
      rewrite parsing_cons by (rewrite length_firstn; lia).
      cbn [concat]. rewrite IH by (rewrite length_skipn; lia).
      apply firstn_skipn.
Qed.

(** X14. parsing never raises and loses nothing, whatever the length: the
    blocks concatenated give the message back; there are
    ceil(len / 64) of them, none for the empty message; every block but
    the last has exactly 64 bytes and the last has between 1 and 64. *)
Theorem X14_parsing_any_length (msg : bytes) :
  concat (parsing msg) = msg
  /\ length (parsing msg) = ((length msg + 63) / 64)%nat
  /\ (parsing msg = [] <-> msg = [])
  /\ (forall i, (S i < length (parsing msg))%nat ->
        length (nth i (parsing msg) []) = 64%nat)
  /\ Forall (fun b => (1 <= length b <= 64)%nat) (parsing msg).
Proof.
  split; [now apply parsing_concat with (length msg) |].
  assert (Hcount : length (parsing msg) = ((length msg + 63) / 64)%nat)
    by (rewrite parsing_chunks, length_map, length_seq; reflexivity).
  pose proof (Nat.div_mod_eq (length msg + 63) 64) as Hdm.
  pose proof (Nat.mod_upper_bound (length msg + 63) 64 ltac:(lia)) as Hub.
  split; [exact Hcount |]. split; [| split].
  - split.
    + intros E. rewrite E in Hcount. cbn [length] in Hcount.
      destruct msg; [reflexivity | cbn [length] in *; lia].
    + intros ->. reflexivity.
  - intros i Hi. rewrite Hcount in Hi. rewrite parsing_chunks.
    rewrite (nth_indep _ [] (firstn 64 (skipn (64 * 0) msg)))
      by (rewrite length_map, length_seq; lia).
    rewrite (map_nth (fun k => firstn 64 (skipn (64 * k) msg))).
    rewrite seq_nth by lia.
    rewrite length_firstn, length_skipn. lia.
  - rewrite parsing_chunks. apply Forall_forall. intros b Hb.
    apply in_map_iff in Hb as (k & <- & Hk). apply in_seq in Hk.
    rewrite length_firstn, length_skipn. lia.
Qed.

(** ** Instances

    Each theorem above that carries hypotheses, applied to a concrete
    input on which the hypotheses are checked by computation. *)

Lemma C1_instance :
  pow_accurate pow_tolerance exact_pow
  /\ sha256 exact_pow two_block_msg <> Ok (FIPS.sha256 two_block_msg).
Proof.
  split; [exact exact_pow_accurate |].
  pose proof (C1_sha256_against_FIPS exact_pow exact_pow_accurate)
    as (_ & _ & _ & _ & Hne).
  exact Hne.
Defined.

Lemma C2_instance :
  pow_accurate pow_tolerance exact_pow
  /\ exists d_empty d_abc,
       sha256 exact_pow [] = Ok d_empty
       /\ length d_empty = 32%nat
       /\ hex d_empty
          = "e3b0c44298fc1c149afbf4c8996fb92427ae41e4649b934ca495991b7852b855"%string
       /\ sha256 exact_pow [x61; x62; x63] = Ok d_abc
       /\ length d_abc = 32%nat
       /\ hex d_abc
          = "ba7816bf8f01cfea414140de5dae2223b00361a396177a9cb410ff61f20015ad"%string.
Proof.
  split; [exact exact_pow_accurate |].
  exact (C2_known_answers exact_pow exact_pow_accurate).
Defined.

Lemma C3_instance :
  pow_accurate pow_tolerance exact_pow
  /\ sha256 exact_pow block_of_a = sha256 exact_pow block_of_b.
Proof.
  split; [exact exact_pow_accurate |].
  pose proof (C3_state_not_carried exact_pow exact_pow_accurate)
    as (_ & Hsame & _).
  exact Hsame.
Defined.

Lemma C4_instance :
  Z.of_nat (length abc) * 8 < 2 ^ 64
  /\ exists (k : nat) (p : bytes),
       padding abc = Ok p
       /\ p = abc ++ [x80] ++ repeat x00 k
                ++ big_endian 8 (Z.of_nat (length abc) * 8)
       /\ length (big_endian 8 (Z.of_nat (length abc) * 8)) = 8%nat
       /\ from_bytes_big (big_endian 8 (Z.of_nat (length abc) * 8))
          = Z.of_nat (length abc) * 8
       /\ (Z.of_nat (length abc + 1 + k) * 8) mod 512 = 448
       /\ (forall j, (j < k)%nat ->
             (Z.of_nat (length abc + 1 + j) * 8) mod 512 <> 448)
       /\ (length p mod 64 = 0)%nat
       /\ (length abc = 55%nat -> k = 0%nat).
Proof.
  assert (H : Z.of_nat (length abc) * 8 < 2 ^ 64) by reflexivity.
  split; [exact H | exact (C4_padding abc H)].
Defined.

Lemma C5_instance :
  length (FIPS.pad abc) = 64%nat
  /\ exists W,
       prepare_schedule (FIPS.pad abc) = Ok W
       /\ length W = 64%nat
       /\ (forall t, (t <= 15)%nat ->
             nth t W [] = slice (FIPS.pad abc) (t * 4) (t * 4 + 4))
       /\ map (word_at W) (seq 0 16) = FIPS.block_words (FIPS.pad abc)
       /\ (forall t, (16 <= t <= 63)%nat ->
             word_at W t
             = (FIPS.sig1 (word_at W (t - 2)) + word_at W (t - 7)
                + FIPS.sig0 (word_at W (t - 15)) + word_at W (t - 16))
                 mod 2 ^ 32).
Proof.
  assert (H : length (FIPS.pad abc) = 64%nat) by reflexivity.
  split; [exact H | exact (C5_message_schedule (FIPS.pad abc) H)].
Defined.

Lemma C6_instance :
  (0 < 64)%nat /\ length FIPS.K = 64%nat
  /\ length (schedule_of (FIPS.pad abc)) = 64%nat
  /\ words (FIPS.working_of FIPS.H0)
  /\ round_step FIPS.K (Some (schedule_of (FIPS.pad abc)))
       (FIPS.working_of FIPS.H0) 0
     = Ok (FIPS.round (FIPS.working_of FIPS.H0) (nth 0 FIPS.K 0)
             (word_at (schedule_of (FIPS.pad abc)) 0)).
Proof.
  assert (Ht : (0 < 64)%nat) by lia.
  assert (Hk : length FIPS.K = 64%nat) by reflexivity.
  assert (HW : length (schedule_of (FIPS.pad abc)) = 64%nat)
    by (vm_compute; reflexivity).
  assert (Hv : words (FIPS.working_of FIPS.H0))
    by (unfold words, FIPS.word; cbn; lia).
  repeat (split; [assumption |]).
  pose proof (C6_round_refines_spec FIPS.K (schedule_of (FIPS.pad abc))
                (FIPS.working_of FIPS.H0) 0 Ht Hk HW Hv) as (Hstep & _).
  exact Hstep.
Defined.

Lemma C7_instance :
  (0 <= 3 < 2 ^ 32) /\ (1 <= 1 <= 31)
  /\ rotr 3 1 32 mod 2 ^ 32 = FIPS.ROTR 1 3
  /\ 0 <= rotr 3 1 32 < 2 ^ (64 - 1).
Proof.
  assert (Hx : 0 <= 3 < 2 ^ 32) by (cbn; lia).
  assert (Hn : 1 <= 1 <= 31) by lia.
  split; [exact Hx |]. split; [exact Hn |].
  pose proof (C7_rotr_low_32_bits 3 1 Hx Hn) as (_ & Hrot & _ & Hbound).
  split; [exact Hrot | exact Hbound].
Defined.

Lemma C8_instance :
  pow_accurate pow_tolerance exact_pow
  /\ gen_keys exact_pow = FIPS.K
  /\ gen_initial_hash exact_pow = FIPS.H0.
Proof.
  split; [exact exact_pow_accurate |].
  pose proof (C8_constant_tables exact_pow exact_pow_accurate)
    as (HK & _ & _ & HH & _).
  split; [exact HK | exact HH].
Defined.

Lemma C9_instance :
  Z.of_nat (length abc) * 8 < 2 ^ 64
  /\ exists (H : list Z) (digest : bytes),
       sha256 exact_pow abc = Ok digest
       /\ length digest = 32%nat
       /\ length H = 8%nat
       /\ Forall (fun x => 0 <= x < 2 ^ 32) H
       /\ map_result integer_to_bytes H = Ok (map (big_endian 4) H)
       /\ digest = concat (map (big_endian 4) H).
Proof.
  assert (H : Z.of_nat (length abc) * 8 < 2 ^ 64) by reflexivity.
  split; [exact H | exact (C9_returns_32_bytes exact_pow abc H)].
Defined.

Lemma C10_instance :
  length block_of_a = 64%nat /\ length block_of_b = 64%nat
  /\ sha256 exact_pow block_of_a = sha256 exact_pow block_of_b.
Proof.
  assert (Ha : length block_of_a = 64%nat) by reflexivity.
  assert (Hb : length block_of_b = 64%nat) by reflexivity.
  split; [exact Ha |]. split; [exact Hb |].
  pose proof (C10_digest_of_last_block_only exact_pow) as (_ & _ & H64 & _).
  exact (H64 block_of_a block_of_b Ha Hb).
Defined.

Lemma X2_instance :
  length (FIPS.pad two_block_msg) = (64 * 2)%nat
  /\ concat (parsing (FIPS.pad two_block_msg)) = FIPS.pad two_block_msg
  /\ length (parsing (FIPS.pad two_block_msg)) = 2%nat.
Proof.
  assert (H : length (FIPS.pad two_block_msg) = (64 * 2)%nat) by reflexivity.
  pose proof (X2_parsing_blocks 2 (FIPS.pad two_block_msg) H)
    as (Hcat & _ & Hlen & _).
  split; [exact H |]. split; [exact Hcat | exact Hlen].
Defined.

Lemma X3_instance :
  pow_accurate pow_tolerance exact_pow /\ (length abc < 56)%nat
  /\ sha256 exact_pow abc = Ok (FIPS.sha256 abc).
Proof.
  assert (H : (length abc < 56)%nat) by (cbn; lia).
  pose proof (X3_one_block_messages exact_pow abc exact_pow_accurate H)
    as (_ & Heq).
  split; [exact exact_pow_accurate |]. split; [exact H | exact Heq].
Defined.

Lemma X4_instance :
  Z.of_nat (length two_block_msg) * 8 < 2 ^ 64
  /\ exists p,
       padding two_block_msg = Ok p
       /\ length p = (64 * ((length two_block_msg + 8) / 64 + 1))%nat
       /\ (length two_block_msg = 55%nat -> length p = 64%nat)
       /\ (length two_block_msg = 56%nat -> length p = 128%nat)
       /\ (length two_block_msg = 57%nat -> length p = 128%nat)
       /\ (length two_block_msg = 64%nat -> length p = 128%nat).
Proof.
  assert (H : Z.of_nat (length two_block_msg) * 8 < 2 ^ 64) by reflexivity.
  split; [exact H | exact (X4_padded_length two_block_msg H)].
Defined.

Lemma X5_instance :
  (0 <= 0x6A09E667 < 2 ^ 32) /\ (0 <= 0xBB67AE85 < 2 ^ 32)
  /\ (0 <= 0x3C6EF372 < 2 ^ 32)
  /\ ch 0x6A09E667 0xBB67AE85 0x3C6EF372
     = FIPS.Ch 0x6A09E667 0xBB67AE85 0x3C6EF372
  /\ summation0 0x6A09E667 mod 2 ^ 32 = FIPS.Sum0 0x6A09E667.
Proof.
  assert (Hx : 0 <= 0x6A09E667 < 2 ^ 32) by (cbn; lia).
  assert (Hy : 0 <= 0xBB67AE85 < 2 ^ 32) by (cbn; lia).
  assert (Hz : 0 <= 0x3C6EF372 < 2 ^ 32) by (cbn; lia).
  pose proof (X5_primitives 0x6A09E667 0xBB67AE85 0x3C6EF372 Hx Hy Hz)
    as (Hch & _ & _ & _ & Hs0 & _).
  repeat (split; [assumption |]). exact Hs0.
Defined.

Lemma X6_instance :
  length [x01; x02; x03; x04] = 4%nat
  /\ integer_to_bytes (bytes_to_integer [x01; x02; x03; x04])
     = Ok [x01; x02; x03; x04].
Proof.
  assert (H : length [x01; x02; x03; x04] = 4%nat) by reflexivity.
  pose proof (X6_integer_bytes_round_trip 0 [x01; x02; x03; x04])
    as (_ & _ & Hback).
  split; [exact H | exact (Hback H)].
Defined.

Lemma X7_instance :
  (8 <= 64)%nat
  /\ length (generate_n_primes 8) = 8%nat
  /\ StronglySorted Z.lt (generate_n_primes 8)
  /\ (forall p, In p (generate_n_primes 8) -> Z.prime p).
Proof.
  assert (H : (8 <= 64)%nat) by lia.
  pose proof (X7_first_primes 8 H) as (Hlen & Hprime & Hsorted & _).
  split; [exact H |]. split; [exact Hlen |]. split; [exact Hsorted | exact Hprime].
Defined.


Lemma X9_instance :
  padding abc = Ok (FIPS.pad abc)
  /\ from_bytes_big (skipn (length (FIPS.pad abc) - 8) (FIPS.pad abc))
     = Z.of_nat (length abc) * 8
  /\ firstn (length abc) (FIPS.pad abc) = abc.
Proof.
  assert (H : padding abc = Ok (FIPS.pad abc)) by (vm_compute; reflexivity).
  pose proof (X9_padding_injective abc abc (FIPS.pad abc) H H)
    as (_ & Hlen & Hpre).
  split; [exact H |]. split; [exact Hlen | exact Hpre].
Defined.

Lemma X10_instance :
  length block_of_a = (64 * 1)%nat /\ length block_of_b = (64 * 1)%nat
  /\ sha256 exact_pow (block_of_a ++ abc) = sha256 exact_pow (block_of_b ++ abc).
Proof.
  assert (Ha : length block_of_a = (64 * 1)%nat) by reflexivity.
  assert (Hb : length block_of_b = (64 * 1)%nat) by reflexivity.
  split; [exact Ha |]. split; [exact Hb |].
  exact (X10_leading_blocks_ignored exact_pow 1 block_of_a block_of_b abc Ha Hb).
Defined.

Lemma X11_instance :
  Z.of_nat (length two_block_msg) * 8 < 2 ^ 64
  /\ (56 <= length two_block_msg mod 64)%nat
  /\ length (repeat x00 56) = length two_block_msg
  /\ sha256 exact_pow two_block_msg = sha256 exact_pow (repeat x00 56).
Proof.
  assert (Hl : Z.of_nat (length two_block_msg) * 8 < 2 ^ 64) by reflexivity.
  assert (Hr : (56 <= length two_block_msg mod 64)%nat)
    by (vm_compute; apply le_n).
  assert (Hlen : length (repeat x00 56) = length two_block_msg) by reflexivity.
  pose proof (X11_digest_of_length_only exact_pow two_block_msg
                (repeat x00 56) Hl Hr Hlen) as (_ & Hsame).
  split; [exact Hl |]. split; [exact Hr |]. split; [exact Hlen | exact Hsame].
Defined.

Lemma X12_instance :
  length FIPS.K = 64%nat
  /\ length (schedule_of (FIPS.pad abc)) = 64%nat
  /\ words (FIPS.working_of FIPS.H0)
  /\ exists v',
       for_each (round_step FIPS.K (Some (schedule_of (FIPS.pad abc))))
         (seq 0 64) (FIPS.working_of FIPS.H0) = Ok v'
       /\ words v'.
Proof.
  assert (Hk : length FIPS.K = 64%nat) by reflexivity.
  assert (HW : length (schedule_of (FIPS.pad abc)) = 64%nat)
    by (vm_compute; reflexivity).
  assert (Hv : words (FIPS.working_of FIPS.H0))
    by (unfold words, FIPS.word; cbn; lia).
  pose proof (X12_compression_loop FIPS.K (schedule_of (FIPS.pad abc))
                (FIPS.working_of FIPS.H0) Hk HW Hv)
    as (v' & Hrun & _ & Hwords & _).
  repeat (split; [assumption |]).
  exists v'. split; [exact Hrun | exact Hwords].
Defined.

Lemma X13_instance :
  (0 <= 3 < 2 ^ 32) /\ (1 <= 1 <= 31)
  /\ rotr 3 1 32 = 3 / 2 ^ 1 + 3 * 2 ^ (32 - 1).
Proof.
  assert (Hx : 0 <= 3 < 2 ^ 32) by (cbn; lia).
  assert (Hn : 1 <= 1 <= 31) by lia.
  pose proof (X13_rotr_value 3 1 Hx Hn) as (Hval & _).
  split; [exact Hx |]. split; [exact Hn | exact Hval].
Defined.
